(** * AssetLoader: a shallow embedding of the preloading queue

    The development follows the source file of the [AssetLoader] class
    (constructor, [invalidate], [__getDataType], [__extension],
    [getDescriptor], [getStatus], [remove], [removeAll], [add], [addAs],
    [indexOf], [__loadCallback], [update], [registerLoader], [load]), the
    bundled [ImageLoader] plugin and the image loader of the demos.

    Modelling decisions, all local to this file:
    - asset names and loader keys are [string]s; [toLowerCase] acts on the
      ASCII letters, which is what JavaScript does on ASCII names;
    - the counters [__loadCount] and [__totalItems] are integers ([Z]); the
      source only ever adds or subtracts one, so no rounding occurs;
    - descriptors are JavaScript objects shared by the [assets] and [tasks]
      arrays: they live in a store ([heap]) and the two arrays hold
      references into it;
    - a [Signal] dispatch is recorded in an event log, in dispatch order; the
      call of a loader's [load] function is recorded there as well;
    - a thrown value ends the operation and keeps the mutations made so far. *)

From Stdlib Require Import ZArith Ascii String.
From stdpp Require Import gmap strings list fin_maps.

Local Open Scope Z_scope.

(** ** JavaScript values *)

Inductive JSValue : Type :=
| JSUndefined
| JSNull
| JSBool (b : bool)
| JSNum (z : Z)
| JSStr (s : string)
| JSObj (id : nat).

Definition JSValue_eqb (a b : JSValue) : bool :=
  match a, b with
  | JSUndefined, JSUndefined => true
  | JSNull, JSNull => true
  | JSBool x, JSBool y => Bool.eqb x y
  | JSNum x, JSNum y => Z.eqb x y
  | JSStr x, JSStr y => String.eqb x y
  | JSObj x, JSObj y => Nat.eqb x y
  | _, _ => false
  end.

(** [a !== b] *)
Definition strict_neq (a b : JSValue) : bool := negb (JSValue_eqb a b).

(** ** String primitives used by the source *)

Module JSString.

(** [s.slice(0, n)] for a non-negative [n] *)
Fixpoint slice_to (n : nat) (s : string) : string :=
  match n, s with
  | O, _ => EmptyString
  | S _, EmptyString => EmptyString
  | S k, String c r => String c (slice_to k r)
  end.

(** [s.slice(n)] and [s.substring(n)] for a non-negative [n] *)
Fixpoint slice_from (n : nat) (s : string) : string :=
  match n, s with
  | O, _ => s
  | S _, EmptyString => EmptyString
  | S k, String _ r => slice_from k r
  end.

(** [s.indexOf(c)] for a one-character [c]; [None] stands for [-1] *)
Fixpoint indexOf (c : ascii) (s : string) : option nat :=
  match s with
  | EmptyString => None
  | String a r => if Ascii.eqb a c then Some O else option_map S (indexOf c r)
  end.

(** [s.lastIndexOf(c)]; [None] stands for [-1] *)
Fixpoint lastIndexOf (c : ascii) (s : string) : option nat :=
  match s with
  | EmptyString => None
  | String a r =>
      match lastIndexOf c r with
      | Some i => Some (S i)
      | None => if Ascii.eqb a c then Some O else None
      end
  end.

(** [s.split(c)]: never empty, [""] splits into [[""]] *)
Fixpoint split (sep : ascii) (s : string) : list string :=
  match s with
  | EmptyString => [EmptyString]
  | String a r =>
      if Ascii.eqb a sep then EmptyString :: split sep r
      else match split sep r with
           | h :: t => String a h :: t
           | [] => [String a EmptyString]
           end
  end.

Definition lower_char (a : ascii) : ascii :=
  let n := nat_of_ascii a in
  if (Nat.leb 65 n && Nat.leb n 90)%bool then ascii_of_nat (n + 32) else a.

(** [s.toLowerCase()] *)
Fixpoint toLowerCase (s : string) : string :=
  match s with
  | EmptyString => EmptyString
  | String a r => String (lower_char a) (toLowerCase r)
  end.

Definition length (s : string) : nat := String.length s.

End JSString.

(** ** The status enumeration

    [AssetLoader.Status] is an object literal; reading a property that the
    literal does not define yields [undefined]. *)

Definition Status : list (string * string) :=
  [ ("QUEUED", "QUEUED");
    ("LOADING", "LOADING");
    ("LOAD_SUCCESS", "LOAD_SUCCESS");
    ("LOAD_FAIL", "LOAD_FAIL") ].

Fixpoint get_property (obj : list (string * string)) (key : string) : JSValue :=
  match obj with
  | [] => JSUndefined
  | (k, v) :: rest => if String.eqb k key then JSStr v else get_property rest key
  end.

(** [AssetLoader.Status.<key>] *)
Definition Status_ (key : string) : JSValue := get_property Status key.

(** ** Loader-key resolution *)

(** [__getDataType]: [None] stands for the returned [null]. *)
Definition __getDataType (str : string) : option string :=
  let test := "data:" in
  let start := JSString.toLowerCase (JSString.slice_to (JSString.length test) str) in
  if String.eqb start test then
    let data := JSString.slice_from (JSString.length test) str in
    match JSString.indexOf "," data with
    | None => None
    | Some sepIdx =>
        let info := hd EmptyString (JSString.split ";" (JSString.slice_to sepIdx data)) in
        if (String.eqb info "" || String.eqb (JSString.toLowerCase info) "text/plain")%bool
        then Some "txt"
        else Some (JSString.toLowerCase (List.last (JSString.split "/" info) EmptyString))
    end
  else None.

(** [__extension] *)
Definition __extension (str : string) : string :=
  match JSString.lastIndexOf "." str with
  | None => ""
  | Some idx =>
      if (Nat.eqb idx 0 || Nat.eqb (S idx) (JSString.length str))%bool then ""
      else JSString.toLowerCase (JSString.slice_from (S idx) str)
  end.

(** ** Descriptors, loaders and the queue *)

(** A callback handed to a loader:
    [this.__loadCallback.bind(this, name, success)]. *)
Record Callback : Type := Bind { bound_name : string; bound_success : bool }.

(** A [load] function receives the two callbacks.  What the queue can observe
    of it is the calls it makes on callbacks before it returns, in order, each
    with the arguments the loader chooses to pass; calls made later (from an
    image handler, a timer, ...) are separate steps of a run. *)
Definition LoadFunc : Type := Callback -> Callback -> list (Callback * list JSValue).

(** [AssetLoader.Descriptor] *)
Record Descriptor : Type := mkDescriptor {
  name : string;
  loadFunc : LoadFunc;
  value : JSValue;
  status : JSValue
}.

(** The object a loader function returns; [ret_load] is [None] when
    [typeof retObj.load] is not ["function"]. *)
Record RetObj : Type := mkRetObj {
  ret_value : JSValue;
  ret_load : option LoadFunc
}.

(** A loader function with its static fields.  [create] is [None] when the
    function returns no object at all. *)
Record Loader : Type := mkLoader {
  create : string -> list JSValue -> option RetObj;
  extensions : list string;
  mediaType : option string
}.

Inductive Event : Type :=
| loadStarted (current total : Z)
| loadFinished (current total : Z)
| loadProgress (name : string) (current total : Z)
| loadError (name : string) (current total : Z)
| loadCall (f : LoadFunc) (cb cbFail : Callback).

Record AssetLoader : Type := mkAssetLoader {
  heap : list Descriptor;
  assets : list nat;
  tasks : list nat;
  __loadCount : Z;
  __totalItems : Z;
  loading : option bool;
  loaders : gmap string Loader
}.

Definition set_heap (h : list Descriptor) (q : AssetLoader) : AssetLoader :=
  mkAssetLoader h (assets q) (tasks q) (__loadCount q) (__totalItems q) (loading q) (loaders q).
Definition set_assets (l : list nat) (q : AssetLoader) : AssetLoader :=
  mkAssetLoader (heap q) l (tasks q) (__loadCount q) (__totalItems q) (loading q) (loaders q).
Definition set_tasks (l : list nat) (q : AssetLoader) : AssetLoader :=
  mkAssetLoader (heap q) (assets q) l (__loadCount q) (__totalItems q) (loading q) (loaders q).
Definition set___loadCount (z : Z) (q : AssetLoader) : AssetLoader :=
  mkAssetLoader (heap q) (assets q) (tasks q) z (__totalItems q) (loading q) (loaders q).
Definition set___totalItems (z : Z) (q : AssetLoader) : AssetLoader :=
  mkAssetLoader (heap q) (assets q) (tasks q) (__loadCount q) z (loading q) (loaders q).
Definition set_loading (b : bool) (q : AssetLoader) : AssetLoader :=
  mkAssetLoader (heap q) (assets q) (tasks q) (__loadCount q) (__totalItems q) (Some b) (loaders q).
Definition set_loaders (m : gmap string Loader) (q : AssetLoader) : AssetLoader :=
  mkAssetLoader (heap q) (assets q) (tasks q) (__loadCount q) (__totalItems q) (loading q) m.

Definition set_status (s : JSValue) (d : Descriptor) : Descriptor :=
  mkDescriptor (name d) (loadFunc d) (value d) s.

(** The read-only properties. *)
Definition remaining (q : AssetLoader) : Z := __loadCount q.
Definition total (q : AssetLoader) : Z := __totalItems q.
Definition current (q : AssetLoader) : Z := total q - remaining q.

(** [if (this.loading)]: an unassigned property is falsy. *)
Definition truthy_loading (q : AssetLoader) : bool :=
  match loading q with Some b => b | None => false end.

(** ** Methods run in a monad: queue state, event log, thrown values *)

Inductive Exn : Type :=
| ThrowStr (msg : string)
| TypeError.

Inductive Completion (A : Type) : Type :=
| Normal (a : A)
| Throw (e : Exn).
Arguments Normal {A} a.
Arguments Throw {A} e.

Definition M (A : Type) : Type := AssetLoader -> Completion A * AssetLoader * list Event.

#[global] Instance M_ret : MRet M := fun A a q => (Normal a, q, []).

#[global] Instance M_bind : MBind M := fun A B f m q =>
  match m q with
  | (Normal a, q1, log1) =>
      match f a q1 with
      | (r, q2, log2) => (r, q2, log1 ++ log2)
      end
  | (Throw e, q1, log1) => (Throw e, q1, log1)
  end.

Definition throw {A : Type} (e : Exn) : M A := fun q => (Throw e, q, []).
Definition get : M AssetLoader := fun q => (Normal q, q, []).
Definition modify (f : AssetLoader -> AssetLoader) : M unit := fun q => (Normal tt, f q, []).
Definition dispatch (e : Event) : M unit := fun q => (Normal tt, q, [e]).
Definition when (b : bool) (m : M unit) : M unit := if b then m else mret tt.

Definition completion {A : Type} (r : Completion A * AssetLoader * list Event) : Completion A := r.1.1.
Definition state_of {A : Type} (r : Completion A * AssetLoader * list Event) : AssetLoader := r.1.2.
Definition log_of {A : Type} (r : Completion A * AssetLoader * list Event) : list Event := r.2.

(** The error conditions, by the value the source throws. *)
Definition MissingName_add : Exn := ThrowStr "No asset name specified for add()".
Definition MissingName_addAs : Exn := ThrowStr "no name specified to load".
Definition NoExtension (name : string) : Exn :=
  ThrowStr ("Asset name does not have a file extension: " +:+ name).
Definition NoLoaderFound (ext name : string) : Exn :=
  ThrowStr ("No known loader for extension " +:+ ext +:+ " in asset " +:+ name).
Definition NoLoaderGiven (name : string) : Exn :=
  ThrowStr ("no loader specified for asset " +:+ name).
Definition DuplicateAsset : Exn := ThrowStr "asset already defined in asset manager".
Definition MalformedLoader : Exn :=
  ThrowStr "loader not implemented correctly; must return a 'load' function".
Definition InvalidRegistration : Exn :=
  ThrowStr "must specify at least one extension for the loader".

(** ** The methods *)

(** [indexOf(list, name)]; [None] stands for [-1].  An entry that holds no
    object is skipped, as [list[i] && ...] does. *)
Fixpoint indexOf (h : list Descriptor) (l : list nat) (n : string) : option nat :=
  match l with
  | [] => None
  | r :: l' =>
      if match h !! r with Some d => String.eqb (name d) n | None => false end
      then Some O
      else option_map S (indexOf h l' n)
  end.

(** [getDescriptor]: the reference of the descriptor, [None] for [null]. *)
Definition getDescriptor (q : AssetLoader) (n : string) : option nat :=
  match indexOf (heap q) (assets q) n with
  | Some idx => assets q !! idx
  | None => None
  end.

Definition getStatus (q : AssetLoader) (n : string) : JSValue :=
  match getDescriptor q n with
  | Some r => match heap q !! r with Some d => status d | None => JSUndefined end
  | None => JSNull
  end.

Definition isLoaded (q : AssetLoader) (n : string) : bool :=
  JSValue_eqb (getStatus q n) (Status_ "LOAD_SUCCESS").

(** [get(name)] *)
Definition get_ (q : AssetLoader) (n : string) : JSValue :=
  match getDescriptor q n with
  | Some r => match heap q !! r with Some d => value d | None => JSUndefined end
  | None => JSNull
  end.

(** Reading a field of the object behind a reference. *)
Definition deref (r : nat) : M Descriptor := fun q =>
  match heap q !! r with
  | Some d => (Normal d, q, [])
  | None => (Throw TypeError, q, [])
  end.

(** [list[i].status = s] on the array of references [l]. *)
Definition assign_status (l : list nat) (i : nat) (s : JSValue) : M unit := fun q =>
  match l !! i with
  | Some r =>
      match heap q !! r with
      | Some d => (Normal tt, set_heap (<[r := set_status s d]> (heap q)) q, [])
      | None => (Throw TypeError, q, [])
      end
  | None => (Throw TypeError, q, [])
  end.

(** The loop of [invalidate] over [this.assets], from index [i]. *)
Fixpoint invalidate_loop (n i : nat) : M unit :=
  match n with
  | O => mret tt
  | S k =>
      q ← get;
      assign_status (assets q) i (Status_ "QUEUED");;
      invalidate_loop k (S i)
  end.

Definition invalidate : M unit :=
  q ← get;
  invalidate_loop (length (assets q)) O;;
  modify (fun q => set_tasks (assets q) q);;
  modify (fun q => set___totalItems (Z.of_nat (length (tasks q))) q);;
  modify (fun q => set___loadCount (__totalItems q) q).

Definition remove (n : string) : M JSValue :=
  q ← get;
  match indexOf (heap q) (assets q) n with
  | None => mret JSNull
  | Some assetIdx =>
      match assets q !! assetIdx with
      | None => throw TypeError
      | Some asset =>
          d ← deref asset;
          modify (fun q => set_assets (delete assetIdx (assets q)) q);;
          q ← get;
          let taskIdx := indexOf (heap q) (tasks q) n in
          modify (fun q => set___totalItems (Z.max 0 (__totalItems q - 1)) q);;
          modify (fun q => set___loadCount (Z.max 0 (__loadCount q - 1)) q);;
          match taskIdx with
          | Some taskIdx => modify (fun q => set_tasks (delete taskIdx (tasks q)) q)
          | None => mret tt
          end;;
          q ← get;
          when (__loadCount q =? 0)
            (when (truthy_loading q) (dispatch (loadFinished 0 0));;
             modify (set_loading false));;
          mret (value d)
      end
  end.

Definition removeAll : M unit :=
  modify (set_assets []);;
  modify (set_tasks []);;
  modify (set___totalItems 0);;
  modify (set___loadCount 0);;
  q ← get;
  when (truthy_loading q) (dispatch (loadFinished 0 0));;
  modify (set_loading false).

Definition destroy : M unit := removeAll.

Definition addAs (loader : option Loader) (n : string) (args : list JSValue) : M JSValue :=
  if String.eqb n "" then throw MissingName_addAs else
  match loader with
  | None => throw (NoLoaderGiven n)
  | Some loader =>
      q ← get;
      match indexOf (heap q) (assets q) n with
      | Some _ => throw DuplicateAsset
      | None =>
          match create loader n args with
          | None => throw TypeError
          | Some retObj =>
              match ret_load retObj with
              | None => throw MalformedLoader
              | Some load =>
                  let descriptor := mkDescriptor n load (ret_value retObj) (Status_ "QUEUED") in
                  q ← get;
                  let r := length (heap q) in
                  modify (fun q => set_heap (heap q ++ [descriptor]) q);;
                  modify (fun q => set_assets (assets q ++ [r]) q);;
                  modify (fun q => set_tasks (tasks q ++ [r]) q);;
                  modify (fun q => set___loadCount (__loadCount q + 1) q);;
                  modify (fun q => set___totalItems (__totalItems q + 1) q);;
                  mret (ret_value retObj)
              end
          end
      end
  end.

(** The value of [ext] in [add] after its two assignments: the data type,
    and the file extension when [__getDataType] returned [null]. *)
Definition add_ext (n : string) : string :=
  match __getDataType n with
  | None => __extension n
  | Some ext => ext
  end.

Definition add (n : string) (args : list JSValue) : M JSValue :=
  if String.eqb n "" then throw MissingName_add else
  let ext := add_ext n in
  if String.eqb ext "" then throw (NoExtension n) else
  q ← get;
  match loaders q !! ext with
  | None => throw (NoLoaderFound ext n)
  | Some loader => addAs (Some loader) n args
  end.

(** [addAll]: the results of the [add] calls; a throw ends the loop. *)
Fixpoint addAll (array : list string) : M (list JSValue) :=
  match array with
  | [] => mret []
  | n :: rest => v ← add n []; vs ← addAll rest; mret (v :: vs)
  end.

Definition __loadCallback (n : string) (success : JSValue) : M unit :=
  let success := strict_neq success (JSBool false) in
  q ← get;
  match indexOf (heap q) (assets q) n with
  | None => mret tt
  | Some assetIdx =>
      modify (fun q => set___loadCount (__loadCount q - 1) q);;
      q ← get;
      assign_status (assets q) assetIdx
        (if success then Status_ "LOAD_SUCCESS" else Status_ "LOAD_FAILED");;
      q ← get;
      let current := __totalItems q - __loadCount q in
      let total := __totalItems q in
      when (negb success) (dispatch (loadError n current total));;
      dispatch (loadProgress n current total);;
      when (__loadCount q =? 0)
        (modify (set_loading false);;
         dispatch (loadFinished current total))
  end.

(** Calling [__loadCallback] with an argument list: the two parameters take
    the first two arguments, a missing one is [undefined], further ones are
    dropped.  A first argument that is no string equals no descriptor's name,
    so the lookup finds nothing. *)
Definition apply___loadCallback (arguments : list JSValue) : M unit :=
  match arguments with
  | JSStr n :: rest => __loadCallback n (hd JSUndefined rest)
  | _ => mret tt
  end.

(** Calling a bound callback: the bound arguments come first. *)
Definition bound_arguments (c : Callback) : list JSValue :=
  [JSStr (bound_name c); JSBool (bound_success c)].

Definition invoke (c : Callback) (args : list JSValue) : M unit :=
  apply___loadCallback (bound_arguments c ++ args).

Fixpoint invoke_all (calls : list (Callback * list JSValue)) : M unit :=
  match calls with
  | [] => mret tt
  | (c, args) :: rest => invoke c args;; invoke_all rest
  end.

(** [loader.call(this, cb, cbFail)] *)
Definition call_load (f : LoadFunc) (cb cbFail : Callback) : M unit :=
  dispatch (loadCall f cb cbFail);;
  invoke_all (f cb cbFail).

Definition update : M bool :=
  q ← get;
  match tasks q with
  | [] => mret (__loadCount q =? 0)
  | nextTask :: rest =>
      when (Nat.eqb (length (tasks q)) (length (assets q)))
        (modify (set_loading true);;
         dispatch (loadStarted 0 (__totalItems q)));;
      modify (set_tasks rest);;
      d ← deref nextTask;
      let loader := loadFunc d in
      let cb := Bind (name d) true in
      let cbFail := Bind (name d) false in
      call_load loader cb cbFail;;
      q ← get;
      mret (__loadCount q =? 0)
  end.

(** [load]: the [while] loop runs while [tasks] is non-empty; every turn
    shifts one task, so [length tasks] turns are enough. *)
Fixpoint load_loop (fuel : nat) : M unit :=
  match fuel with
  | O => mret tt
  | S k =>
      q ← get;
      match tasks q with
      | [] => mret tt
      | _ :: _ => update;; load_loop k
      end
  end.

Definition load : M unit :=
  q ← get;
  load_loop (length (tasks q)).

(** ** Loader registration and the constructor *)

(** The registry is a plain object; the map holds its own properties.

    [obj[key] = value]: the key ["__proto__"] names the accessor of
    [Object.prototype], so assigning a function to it replaces the prototype
    of [obj] and creates no own property; every other key becomes an own
    property.  (An entry named ["hasOwnProperty"] is an own property like any
    other; it would shadow the method that [add] calls on the registry, so the
    statements below about [add] after a registration are made for a registry
    without such an entry.) *)
Definition assign_property (obj : gmap string Loader) (key : string) (value : Loader)
    : gmap string Loader :=
  if String.eqb key "__proto__" then obj else <[key := value]> obj.

(** The loop of the module-level [registerLoader] over [extensions]. *)
Fixpoint register_loop (loaders : gmap string Loader) (loaderFunc : Loader)
    (extensions : list string) (mediaType : option string) : gmap string Loader :=
  match extensions with
  | [] => loaders
  | e :: rest =>
      let loaders := assign_property loaders e loaderFunc in
      let loaders :=
        match mediaType with
        | Some m => if String.eqb m "" then loaders
                    else assign_property loaders (m +:+ "/" +:+ e) loaderFunc
        | None => loaders
        end in
      register_loop loaders loaderFunc rest mediaType
  end.

(** The module-level [registerLoader(loaders, loaderFunc, extensions,
    mediaType)]; the result is the new content of [loaders].  [loaderFunc] is
    [None] for a falsy argument; [extensions] is [[]] for a missing or empty
    array. *)
Definition registerLoader_ (loaders : gmap string Loader) (loaderFunc : option Loader)
    (extensions : list string) (mediaType : option string)
    : Exn + gmap string Loader :=
  match loaderFunc, extensions with
  | None, _ => inl InvalidRegistration
  | Some _, [] => inl InvalidRegistration
  | Some f, _ :: _ => inr (register_loop loaders f extensions mediaType)
  end.

(** The method [registerLoader(loader)].  It reads [loader.extensions] and
    [loader.mediaType] before it calls the module-level function, so a
    [loader] that is [undefined] or [null] ([None]) raises a [TypeError]. *)
Definition registerLoader (loader : option Loader) : M unit := fun q =>
  match loader with
  | None => (Throw TypeError, q, [])
  | Some f =>
      match registerLoader_ (loaders q) (Some f) (extensions f) (mediaType f) with
      | inl e => (Throw e, q, [])
      | inr m => (Normal tt, set_loaders m q, [])
      end
  end.

(** [AssetLoader.registerCommonLoader(loader)], on the content of
    [AssetLoader.commonLoaders]. *)
Definition registerCommonLoader (commonLoaders : gmap string Loader) (loader : option Loader)
    : Exn + gmap string Loader :=
  match loader with
  | None => inl TypeError
  | Some f => registerLoader_ commonLoaders (Some f) (extensions f) (mediaType f)
  end.

(** The bundled image loader.  Its [load] function takes one parameter,
    [finished], installs the three image handlers and sets [img.src]; it calls
    nothing before it returns.  The handlers run later. *)
Definition ImageLoader_load : LoadFunc := fun finished _ => [].

Inductive ImageEvent : Type := onload | onerror | onabort.

(** The call an image handler makes when it fires. *)
Definition ImageLoader_handler (finished : Callback) (ev : ImageEvent)
    : Callback * list JSValue :=
  match ev with
  | onload => (finished, [])
  | onerror => (finished, [JSBool false])
  | onabort => (finished, [JSBool false])
  end.

(** [new Image()] is an object the queue never looks into. *)
Definition Image : JSValue := JSObj 0.

Definition ImageLoader : Loader :=
  {| create := fun _ _ => Some {| ret_value := Image; ret_load := Some ImageLoader_load |};
     extensions := ["png"; "gif"; "jpg"; "jpeg"];
     mediaType := Some "image" |}.

(** The image loader of the demos.  Its [load] function takes both callbacks,
    [onComplete] and [onError]; the handler of a loaded image calls
    [onComplete()], the handlers of a failed or aborted one call [onError()]. *)
Definition DemoImageLoader_load : LoadFunc := fun onComplete onError => [].

Definition DemoImageLoader_handler (onComplete onError : Callback) (ev : ImageEvent)
    : Callback * list JSValue :=
  match ev with
  | onload => (onComplete, [])
  | onerror => (onError, [])
  | onabort => (onError, [])
  end.

Definition DemoImageLoader : Loader :=
  {| create := fun _ _ => Some {| ret_value := Image; ret_load := Some DemoImageLoader_load |};
     extensions := ["png"; "gif"; "jpg"; "jpeg"];
     mediaType := Some "image" |}.

(** The constructor; [commonLoaders] is the content of
    [AssetLoader.commonLoaders] when [new AssetLoader()] runs.  That object is
    filled by [registerCommonLoader] through the same assignments, so it has
    no entry named ["__proto__"], and copying it entry by entry gives the same
    map. *)
Definition initialize (commonLoaders : gmap string Loader) : AssetLoader :=
  let this := mkAssetLoader [] [] [] 0 0 None commonLoaders in
  state_of (registerLoader (Some ImageLoader) this).

(** ** Runs: operations of the caller and completions of loaders *)

Inductive Op : Type :=
| Add (n : string) (args : list JSValue)
| AddAs (loader : option Loader) (n : string) (args : list JSValue)
| Remove (n : string)
| RemoveAll
| Update
| Load
| Invalidate
| RegisterLoader (loader : option Loader)
| Complete (c : Callback) (args : list JSValue).

Definition discard {A : Type} (m : M A) : M unit := m ;; mret tt.

Definition exec (op : Op) : M unit :=
  match op with
  | Add n args => discard (add n args)
  | AddAs l n args => discard (addAs l n args)
  | Remove n => discard (remove n)
  | RemoveAll => removeAll
  | Update => discard update
  | Load => load
  | Invalidate => invalidate
  | RegisterLoader l => registerLoader l
  | Complete c args => invoke c args
  end.

(** A run continues after an operation that threw: the caller may catch. *)
Fixpoint run (ops : list Op) (q : AssetLoader) : AssetLoader * list Event :=
  match ops with
  | [] => (q, [])
  | op :: rest =>
      let r := exec op q in
      let r' := run rest (state_of r) in
      (r'.1, log_of r ++ r'.2)
  end.

Inductive reachable (q0 : AssetLoader) : AssetLoader -> Prop :=
| reachable_init : reachable q0 q0
| reachable_step q op : reachable q0 q -> reachable q0 (state_of (exec op q)).

(** ** Vocabulary of the statements *)

(** Concrete queues used to instantiate the general statements: the
    constructor run with no common loaders; one image added; two images
    added and the first one started. *)
Definition fresh : AssetLoader := initialize ∅.

Definition one_image : AssetLoader := (run [Add "x.png" []] fresh).1.

Definition two_images_first_started : AssetLoader :=
  (run [Add "a.png" []; Add "b.gif" []; Update] fresh).1.

(** The state and the events of [__loadCallback] on a present asset whose
    descriptor [d] is behind the reference [r]; [ok] is the value of
    [success] after [success !== false]. *)
Definition completed (q : AssetLoader) (r : nat) (d : Descriptor) (ok : bool) : AssetLoader :=
  let lc := __loadCount q - 1 in
  let st := if ok then Status_ "LOAD_SUCCESS" else Status_ "LOAD_FAILED" in
  let q1 := set_heap (<[r := set_status st d]> (heap q)) (set___loadCount lc q) in
  if lc =? 0 then set_loading false q1 else q1.

Definition completed_log (q : AssetLoader) (n : string) (ok : bool) : list Event :=
  let lc := __loadCount q - 1 in
  let cur := __totalItems q - lc in
  (if ok then [] else [loadError n cur (__totalItems q)])
  ++ [loadProgress n cur (__totalItems q)]
  ++ (if lc =? 0 then [loadFinished cur (__totalItems q)] else []).

(** [preserves R m]: [m] takes every state to an [R]-related one, whether it
    returns or throws. *)
Definition preserves {A : Type} (R : AssetLoader -> AssetLoader -> Prop) (m : M A) : Prop :=
  forall q, R q (state_of (m q)).

(** [logs P m]: every event [m] records satisfies [P]. *)
Definition logs {A : Type} (P : Event -> Prop) (m : M A) : Prop :=
  forall q, Forall P (log_of (m q)).

(** Kinds of events. *)
Definition is_loadCall (e : Event) : bool :=
  match e with loadCall _ _ _ => true | _ => false end.

Definition is_loadStarted (e : Event) : bool :=
  match e with loadStarted _ _ => true | _ => false end.


(** Neither the call of a [load] function nor a started event. *)
Definition completion_event (e : Event) : Prop :=
  is_loadCall e = false /\ is_loadStarted e = false.

(** What a completion callback leaves alone. *)
Definition same_queue (q q' : AssetLoader) : Prop :=
  tasks q' = tasks q /\ assets q' = assets q /\
  __totalItems q' = __totalItems q /\ loaders q' = loaders q.

(** The test of [update] that guards the started event. *)
Definition started_now (q : AssetLoader) : bool :=
  Nat.eqb (length (tasks q)) (length (assets q)).

Definition no_loading (q : AssetLoader) : Prop :=
  Forall (fun d => status d <> JSStr "LOADING") (heap q).

(** Every descriptor of [q] is still there in [q'], under its name, and its
    status is the old one or one that a completion assigns. *)
Definition keeps_status (q q' : AssetLoader) : Prop :=
  forall r d, heap q !! r = Some d ->
    exists d', heap q' !! r = Some d' /\ name d' = name d /\
      (status d' = status d \/ status d' = Status_ "LOAD_SUCCESS"
       \/ status d' = Status_ "LOAD_FAILED").

(** How one method changes descriptors and the [total] counter; [reset] is
    [true] for [invalidate], which alone may put a status back. *)
Definition step_rel (reset : bool) (q q' : AssetLoader) : Prop :=
  (no_loading q -> no_loading q') /\
  (0 <= __totalItems q -> 0 <= __totalItems q') /\
  (reset = false -> keeps_status q q').

Definition is_invalidate (op : Op) : bool :=
  match op with Invalidate => true | _ => false end.

(** The name behind a reference, and the names of an array of references in
    array order. *)
Definition name_at (h : list Descriptor) (r : nat) : option string := name <$> h !! r.

Definition names (h : list Descriptor) (l : list nat) : list string := omap (name_at h) l.

Definition asset_names (q : AssetLoader) : list string := names (heap q) (assets q).

(** Every entry of the asset list holds an object. *)
Definition valid_refs (q : AssetLoader) : Prop :=
  Forall (fun r => (r < length (heap q))%nat) (assets q).

(** What the public operations and the completion callbacks keep true. *)
Definition consistent (q : AssetLoader) : Prop :=
  valid_refs q /\
  tasks q `sublist_of` assets q /\
  NoDup (asset_names q) /\
  __totalItems q = Z.of_nat (length (assets q)) /\
  __loadCount q <= __totalItems q.

(** The fields of a descriptor that are written once, by the constructor. *)
Definition fields_kept (q q' : AssetLoader) : Prop :=
  length (heap q') = length (heap q) /\
  forall r d, heap q !! r = Some d ->
    exists d', heap q' !! r = Some d' /\ name d' = name d /\
      loadFunc d' = loadFunc d /\ value d' = value d.

(** A completion changes statuses, lowers [remaining] and may clear the
    loading flag. *)
Definition completion_rel (q q' : AssetLoader) : Prop :=
  fields_kept q q' /\ __loadCount q' <= __loadCount q.

(** The queue after [addAs] has pushed the descriptor [d]. *)
Definition pushed (q : AssetLoader) (d : Descriptor) : AssetLoader :=
  let r := length (heap q) in
  mkAssetLoader (heap q ++ [d]) (assets q ++ [r]) (tasks q ++ [r])
    (__loadCount q + 1) (__totalItems q + 1) (loading q) (loaders q).

(** The queue and the events after [remove(n)] has found [n] at index [i] of
    the asset list. *)
Definition removed (q : AssetLoader) (n : string) (i : nat) : AssetLoader :=
  let ts := match indexOf (heap q) (tasks q) n with
            | Some j => delete j (tasks q)
            | None => tasks q
            end in
  let lc := Z.max 0 (__loadCount q - 1) in
  mkAssetLoader (heap q) (delete i (assets q)) ts lc (Z.max 0 (__totalItems q - 1))
    (if lc =? 0 then Some false else loading q) (loaders q).

Definition removed_log (q : AssetLoader) : list Event :=
  if ((Z.max 0 (__loadCount q - 1) =? 0) && truthy_loading q)%bool
  then [loadFinished 0 0] else [].





(** The store after the loop of [invalidate] has run over the references [l]. *)
Definition reset_status (h : list Descriptor) (l : list nat) : list Descriptor :=
  foldl (fun h r => alter (set_status (Status_ "QUEUED")) r h) h l.

(** The queue after [invalidate]. *)
Definition invalidated (q : AssetLoader) : AssetLoader :=
  mkAssetLoader (reset_status (heap q) (assets q)) (assets q) (assets q)
    (Z.of_nat (length (assets q))) (Z.of_nat (length (assets q))) (loading q) (loaders q).

(** The queue after [removeAll]. *)
Definition cleared (q : AssetLoader) : AssetLoader :=
  mkAssetLoader (heap q) [] [] 0 0 (Some false) (loaders q).









(** Operations that neither add nor remove a descriptor. *)
Definition keeps_assets (op : Op) : bool :=
  match op with
  | Update | Load | Invalidate | RegisterLoader _ | Complete _ _ => true
  | _ => false
  end.

Definition same_assets (q q' : AssetLoader) : Prop :=
  fields_kept q q' /\ assets q' = assets q.

(** The record of the call [update] makes on the [load] function of the
    descriptor behind [r]. *)
Definition call_of (h : list Descriptor) (r : nat) : option Event :=
  (fun d => loadCall (loadFunc d) (Bind (name d) true) (Bind (name d) false)) <$> h !! r.





(** The own properties [registerLoader] writes for a loader: its extensions
    other than ["__proto__"], and [mediaType/extension] for each extension
    when the media type is set. *)
Definition own_extensions (extensions : list string) : list string :=
  List.filter (fun e => negb (String.eqb e "__proto__")) extensions.

Definition media_keys (mediaType : option string) (extensions : list string) : list string :=
  match mediaType with
  | Some m => if String.eqb m "" then [] else (fun e => m +:+ "/" +:+ e) <$> extensions
  | None => []
  end.








(** No event at all. *)
Definition no_event (e : Event) : Prop := False.

Definition is_loadError (e : Event) : bool :=
  match e with loadError _ _ _ => true | _ => false end.

(** No descriptor has the empty name. *)
Definition names_nonempty (q : AssetLoader) : Prop :=
  Forall (fun d => name d <> "") (heap q).

(** * Properties *)

(** ** Unfolding the monad *)

Ltac unfold_M :=
  unfold mbind, mret, M_bind, M_ret, when, throw, get, modify, dispatch,
    deref, assign_status, discard, completion, state_of, log_of in *.

Lemma M_bind_unfold {A B : Type} (f : A -> M B) (m : M A) (q : AssetLoader) :
  (m ≫= f) q =
    match m q with
    | (Normal a, q1, log1) =>
        match f a q1 with (r, q2, log2) => (r, q2, log1 ++ log2) end
    | (Throw e, q1, log1) => (Throw e, q1, log1)
    end.
Proof. reflexivity. Qed.

(** ** Lookup by name *)

Lemma indexOf_Some h l n i :
  indexOf h l n = Some i ->
  exists r d, l !! i = Some r /\ h !! r = Some d /\ name d = n.
Proof.
  revert i. induction l as [|r l IH]; intros i H; simpl in H; [discriminate|].
  destruct (h !! r) as [d|] eqn:Hr.
  - destruct (String.eqb (name d) n) eqn:Hn.
    + injection H as <-. apply String.eqb_eq in Hn. exists r, d. auto.
    + destruct (indexOf h l n) as [j|]; [|discriminate].
      injection H as <-. destruct (IH j eq_refl) as (r' & d' & ? & ? & ?).
      exists r', d'. auto.
  - destruct (indexOf h l n) as [j|]; [|discriminate].
    injection H as <-. destruct (IH j eq_refl) as (r' & d' & ? & ? & ?).
    exists r', d'. auto.
Qed.

Lemma indexOf_set_status h l n r d s :
  h !! r = Some d ->
  indexOf (<[r := set_status s d]> h) l n = indexOf h l n.
Proof.
  intros Hr. induction l as [|r' l IH]; simpl; [reflexivity|].
  rewrite IH. destruct (decide (r = r')) as [<-|Hne].
  - rewrite list_lookup_insert_eq by (eapply lookup_lt_Some; eauto).
    rewrite Hr. reflexivity.
  - rewrite list_lookup_insert_ne by assumption. reflexivity.
Qed.

(** ** The completion handler on a present asset, in closed form *)

Lemma __loadCallback_present q n s i r d :
  indexOf (heap q) (assets q) n = Some i ->
  assets q !! i = Some r ->
  heap q !! r = Some d ->
  __loadCallback n s q =
    (Normal tt, completed q r d (strict_neq s (JSBool false)),
     completed_log q n (strict_neq s (JSBool false))).
Proof.
  intros Hi Hr Hd. unfold __loadCallback, completed, completed_log.
  rewrite M_bind_unfold. unfold get at 1. cbv beta iota. rewrite Hi.
  unfold_M. simpl. rewrite Hr, Hd.
  destruct (strict_neq s (JSBool false)); simpl;
    destruct (__loadCount q - 1 =? 0); reflexivity.
Qed.

Lemma __loadCallback_absent q n s :
  indexOf (heap q) (assets q) n = None ->
  __loadCallback n s q = (Normal tt, q, []).
Proof.
  intros Hi. unfold __loadCallback. rewrite M_bind_unfold. unfold get at 1.
  cbv beta iota. rewrite Hi. reflexivity.
Qed.

(** The handler never throws. *)
Lemma __loadCallback_total q n s : completion (__loadCallback n s q) = Normal tt.
Proof.
  destruct (indexOf (heap q) (assets q) n) as [i|] eqn:Hi.
  - destruct (indexOf_Some _ _ _ _ Hi) as (r & d & Hr & Hd & _).
    rewrite (__loadCallback_present q n s i r d) by assumption. reflexivity.
  - rewrite __loadCallback_absent by assumption. reflexivity.
Qed.

Lemma invoke_eq c args q :
  invoke c args q = __loadCallback (bound_name c) (JSBool (bound_success c)) q.
Proof. reflexivity. Qed.

Lemma getStatus_completed q n s i :
  indexOf (heap q) (assets q) n = Some i ->
  getStatus (state_of (__loadCallback n s q)) n =
    if strict_neq s (JSBool false) then Status_ "LOAD_SUCCESS" else Status_ "LOAD_FAILED".
Proof.
  intros Hi. destruct (indexOf_Some _ _ _ _ Hi) as (r & d & Hr & Hd & _).
  rewrite (__loadCallback_present q n s i r d) by assumption.
  unfold state_of, completed, getStatus, getDescriptor. simpl.
  assert (Hlt : (r < length (heap q))%nat) by (eapply lookup_lt_Some; eauto).
  destruct (__loadCount q - 1 =? 0); simpl;
    rewrite indexOf_set_status, Hi, Hr by assumption;
    rewrite list_lookup_insert_eq by assumption; reflexivity.
Qed.

(** ** The completion handler *)

(** C8.  A completion callback, success or failure, bound to a name that has
    no descriptor in the asset list does nothing: it returns normally, the
    whole queue state (asset list, pending list, counters, descriptors,
    loading flag) is the one before, and no event is dispatched. *)
Theorem callback_for_absent_asset_is_noop (q : AssetLoader) (c : Callback)
    (args : list JSValue) :
  indexOf (heap q) (assets q) (bound_name c) = None ->
  invoke c args q = (Normal tt, q, []).
Proof.
  intros Hi. rewrite invoke_eq. apply __loadCallback_absent. exact Hi.
Qed.

Lemma callback_for_absent_asset_is_noop_witness :
  indexOf (heap two_images_first_started) (assets two_images_first_started) "gone.png" = None /\
  invoke (Bind "gone.png" false) [] two_images_first_started
    = (Normal tt, two_images_first_started, []).
Proof.
  split; [reflexivity|].
  apply (callback_for_absent_asset_is_noop two_images_first_started (Bind "gone.png" false) []).
  reflexivity.
Defined.

(** C7.  A completion callback for an asset that is present decrements
    [remaining] by one and leaves [total]; its events are, in this order, an
    error event exactly when the outcome is a failure, one progress event,
    and a finished event exactly when [remaining] reached zero, all carrying
    [current = total - remaining] computed after the decrement; the loading
    flag is cleared exactly when [remaining] reached zero. *)
Theorem callback_for_present_asset (q : AssetLoader) (n : string) (success : JSValue)
    (i : nat) :
  indexOf (heap q) (assets q) n = Some i ->
  let res := __loadCallback n success q in
  let q' := state_of res in
  let failure := JSValue_eqb success (JSBool false) in
  let cur := total q' - remaining q' in
  completion res = Normal tt /\
  remaining q' = remaining q - 1 /\
  total q' = total q /\
  log_of res =
    (if failure then [loadError n cur (total q')] else [])
    ++ [loadProgress n cur (total q')]
    ++ (if remaining q' =? 0 then [loadFinished cur (total q')] else []) /\
  loading q' = (if remaining q' =? 0 then Some false else loading q).
Proof.
  intros Hi. destruct (indexOf_Some _ _ _ _ Hi) as (r & d & Hr & Hd & _).
  cbv zeta. rewrite (__loadCallback_present q n success i r d) by assumption.
  unfold completion, state_of, log_of, completed, completed_log, strict_neq,
    remaining, total. simpl.
  destruct (JSValue_eqb success (JSBool false));
    destruct (__loadCount q - 1 =? 0) eqn:Hz; simpl; rewrite ?Hz;
    repeat split; reflexivity.
Qed.

Lemma callback_for_present_asset_witness :
  log_of (__loadCallback "a.png" (JSBool false) two_images_first_started)
    = [loadError "a.png" 1 2; loadProgress "a.png" 1 2] /\
  remaining (state_of (__loadCallback "a.png" (JSBool false) two_images_first_started)) = 1.
Proof.
  destruct (callback_for_present_asset two_images_first_started "a.png" (JSBool false) 0%nat)
    as (_ & Hrem & _ & Hlog & _); [reflexivity|].
  split; [exact Hlog | exact Hrem].
Defined.

(** C10.  The outcome of a callback handed out by [update] is fixed when it
    is bound: whatever arguments the loader passes, the call is the handler
    run on the bound name and the bound flag.  A success callback called with
    [false], as the image handlers [onerror] and [onabort] of the bundled
    loader do, records [LOAD_SUCCESS]. *)
Theorem bound_callback_ignores_arguments (q : AssetLoader) (c : Callback)
    (args : list JSValue) :
  invoke c args q = invoke c [] q /\
  invoke c args q = __loadCallback (bound_name c) (JSBool (bound_success c)) q /\
  (forall (i : nat) (ev : ImageEvent),
     indexOf (heap q) (assets q) (bound_name c) = Some i ->
     bound_success c = true ->
     getStatus (state_of (invoke c [JSBool false] q)) (bound_name c) = JSStr "LOAD_SUCCESS" /\
     getStatus (state_of (invoke (ImageLoader_handler c ev).1 (ImageLoader_handler c ev).2 q))
       (bound_name c) = JSStr "LOAD_SUCCESS").
Proof.
  repeat split; try reflexivity.
  - rewrite invoke_eq, (getStatus_completed q _ _ i) by assumption.
    rewrite H0. reflexivity.
  - destruct ev; simpl; rewrite invoke_eq, (getStatus_completed q _ _ i) by assumption;
      rewrite H0; reflexivity.
Qed.

Lemma bound_callback_ignores_arguments_witness :
  getStatus (state_of (invoke (Bind "a.png" true) [JSBool false] two_images_first_started))
    "a.png" = JSStr "LOAD_SUCCESS".
Proof.
  destruct (bound_callback_ignores_arguments two_images_first_started
              (Bind "a.png" true) [JSBool false]) as (_ & _ & H).
  destruct (H 0%nat onerror) as [H1 _]; [reflexivity | reflexivity | exact H1].
Defined.

(** ** Relating the state before and after a method

    [preserves R m] says that [m] takes every state to an [R]-related one,
    whether it returns or throws.  For a reflexive and transitive [R] this is
    proved along the structure of [m]. *)

Section Preservation.
Variable R : AssetLoader -> AssetLoader -> Prop.
Hypothesis R_refl : forall q, R q q.
Hypothesis R_trans : forall q1 q2 q3, R q1 q2 -> R q2 q3 -> R q1 q3.

Lemma preserves_ret {A : Type} (a : A) : preserves R (mret a).
Proof. intros q. apply R_refl. Qed.

Lemma preserves_throw {A : Type} (e : Exn) : preserves R (@throw A e).
Proof. intros q. apply R_refl. Qed.

Lemma preserves_get : preserves R get.
Proof. intros q. apply R_refl. Qed.

Lemma preserves_dispatch (e : Event) : preserves R (dispatch e).
Proof. intros q. apply R_refl. Qed.

Lemma preserves_deref (r : nat) : preserves R (deref r).
Proof. intros q. unfold deref, state_of. destruct (heap q !! r); apply R_refl. Qed.

Lemma preserves_modify (f : AssetLoader -> AssetLoader) :
  (forall q, R q (f q)) -> preserves R (modify f).
Proof. intros H q. apply H. Qed.

Lemma preserves_bind {A B : Type} (m : M A) (f : A -> M B) :
  preserves R m -> (forall a, preserves R (f a)) -> preserves R (m ≫= f).
Proof.
  intros Hm Hf q. rewrite M_bind_unfold. specialize (Hm q).
  destruct (m q) as [[[a|e] q1] log1]; unfold state_of in *; simpl in *.
  - specialize (Hf a q1). destruct (f a q1) as [[rb q2] log2]. simpl in *.
    eapply R_trans; eauto.
  - exact Hm.
Qed.

Lemma preserves_when (b : bool) (m : M unit) : preserves R m -> preserves R (when b m).
Proof. intros H. destruct b; [exact H | apply preserves_ret]. Qed.

Lemma preserves_assign_status (l : list nat) (i : nat) (s : JSValue) :
  (forall q r d, heap q !! r = Some d ->
     R q (set_heap (<[r := set_status s d]> (heap q)) q)) ->
  preserves R (assign_status l i s).
Proof.
  intros H q. unfold assign_status, state_of.
  destruct (l !! i) as [r|]; [|apply R_refl].
  destruct (heap q !! r) as [d|] eqn:Hd; [|apply R_refl].
  simpl. apply H. exact Hd.
Qed.
End Preservation.

Section Logs.
Variable P : Event -> Prop.

Lemma logs_ret {A : Type} (a : A) : logs P (mret a).
Proof. intros q. constructor. Qed.

Lemma logs_throw {A : Type} (e : Exn) : logs P (@throw A e).
Proof. intros q. constructor. Qed.

Lemma logs_get : logs P get.
Proof. intros q. constructor. Qed.

Lemma logs_modify (f : AssetLoader -> AssetLoader) : logs P (modify f).
Proof. intros q. constructor. Qed.

Lemma logs_deref (r : nat) : logs P (deref r).
Proof. intros q. unfold deref, log_of. destruct (heap q !! r); constructor. Qed.

Lemma logs_assign_status (l : list nat) (i : nat) (s : JSValue) :
  logs P (assign_status l i s).
Proof.
  intros q. unfold assign_status, log_of.
  destruct (l !! i) as [r|]; [|constructor].
  destruct (heap q !! r); constructor.
Qed.

Lemma logs_dispatch (e : Event) : P e -> logs P (dispatch e).
Proof. intros H q. repeat constructor. exact H. Qed.

Lemma logs_bind {A B : Type} (m : M A) (f : A -> M B) :
  logs P m -> (forall a, logs P (f a)) -> logs P (m ≫= f).
Proof.
  intros Hm Hf q. rewrite M_bind_unfold. specialize (Hm q).
  destruct (m q) as [[[a|e] q1] log1]; unfold log_of in *; simpl in *.
  - specialize (Hf a q1). destruct (f a q1) as [[rb q2] log2]. simpl in *.
    apply Forall_app. split; assumption.
  - exact Hm.
Qed.

Lemma logs_when (b : bool) (m : M unit) : logs P m -> logs P (when b m).
Proof. intros H. destruct b; [exact H | apply logs_ret]. Qed.
End Logs.

(** Splits a goal [preserves R m] or [logs P m] along the structure of [m];
    what remains are the state updates and dispatches of [m]. *)
Ltac split_method :=
  repeat first
    [ progress cbv zeta
    | apply preserves_ret; [assumption..]
    | apply preserves_throw; [assumption..]
    | apply preserves_get; [assumption..]
    | apply preserves_dispatch; [assumption..]
    | apply preserves_deref; [assumption..]
    | apply preserves_when; [assumption..|]
    | apply preserves_bind; [assumption..| |intros ?]
    | apply logs_ret
    | apply logs_throw
    | apply logs_get
    | apply logs_modify
    | apply logs_deref
    | apply logs_assign_status
    | apply logs_when
    | apply logs_bind; [|intros ?]
    | match goal with
      | |- preserves _ (match ?x with _ => _ end) => destruct x
      | |- logs _ (match ?x with _ => _ end) => destruct x
      end ].

(** ** What completion callbacks leave alone *)

Lemma same_queue_refl q : same_queue q q.
Proof. repeat split. Qed.

Lemma same_queue_trans q1 q2 q3 : same_queue q1 q2 -> same_queue q2 q3 -> same_queue q1 q3.
Proof. unfold same_queue. intros (?&?&?&?) (?&?&?&?). repeat split; congruence. Qed.

Ltac same_queue_leaf :=
  first [ apply preserves_assign_status; [assumption|] | apply preserves_modify ];
  intros; repeat split; reflexivity.

Lemma __loadCallback_same_queue n s : preserves same_queue (__loadCallback n s).
Proof.
  pose proof same_queue_refl. pose proof same_queue_trans.
  unfold __loadCallback. split_method; same_queue_leaf.
Qed.

Lemma invoke_all_same_queue calls : preserves same_queue (invoke_all calls).
Proof.
  pose proof same_queue_refl. pose proof same_queue_trans.
  induction calls as [|[c args] calls IH]; cbn [invoke_all].
  - apply preserves_ret; assumption.
  - apply preserves_bind; [assumption | | intros _; exact IH].
    exact (__loadCallback_same_queue (bound_name c) (JSBool (bound_success c))).
Qed.

Lemma __loadCallback_logs n s : logs completion_event (__loadCallback n s).
Proof.
  unfold __loadCallback. split_method; apply logs_dispatch; split; reflexivity.
Qed.

Lemma invoke_all_logs calls : logs completion_event (invoke_all calls).
Proof.
  induction calls as [|[c args] calls IH]; cbn [invoke_all].
  - apply logs_ret.
  - apply logs_bind; [| intros _; exact IH].
    exact (__loadCallback_logs (bound_name c) (JSBool (bound_success c))).
Qed.

Lemma invoke_all_total calls q : completion (invoke_all calls q) = Normal tt.
Proof.
  revert q. induction calls as [|[c args] calls IH]; intros q; [reflexivity|].
  simpl. rewrite M_bind_unfold, invoke_eq.
  pose proof (__loadCallback_total q (bound_name c) (JSBool (bound_success c))) as Ht.
  destruct (__loadCallback _ _ q) as [[rc q1] l1]. unfold completion in Ht. simpl in Ht.
  subst rc. specialize (IH q1). destruct (invoke_all calls q1) as [[rc q2] l2].
  exact IH.
Qed.

Lemma filter_completion_events (f : Event -> bool) (l : list Event) :
  (forall e, completion_event e -> f e = false) ->
  Forall completion_event l -> List.filter f l = [].
Proof.
  intros Hf Hl. induction Hl as [|e l He _ IH]; simpl; [reflexivity|].
  rewrite (Hf e He). exact IH.
Qed.

(** ** [update] in closed form *)

Lemma update_empty q : tasks q = [] -> update q = (Normal (__loadCount q =? 0), q, []).
Proof.
  intros Ht. unfold update. rewrite M_bind_unfold. unfold get at 1. cbv beta iota.
  rewrite Ht. reflexivity.
Qed.

Lemma update_nonempty q r rest d :
  tasks q = r :: rest ->
  heap q !! r = Some d ->
  let cb := Bind (name d) true in
  let cbFail := Bind (name d) false in
  let q1 := set_tasks rest (if started_now q then set_loading true q else q) in
  let res := invoke_all (loadFunc d cb cbFail) q1 in
  update q =
    (Normal (__loadCount (state_of res) =? 0), state_of res,
     (if started_now q then [loadStarted 0 (__totalItems q)] else [])
     ++ [loadCall (loadFunc d) cb cbFail] ++ log_of res).
Proof.
  intros Ht Hd. cbv zeta. unfold update. rewrite M_bind_unfold. unfold get at 1.
  cbv beta iota. rewrite Ht. rewrite <- Ht. fold (started_now q).
  pose proof (invoke_all_total (loadFunc d (Bind (name d) true) (Bind (name d) false))
                (set_tasks rest (if started_now q then set_loading true q else q))) as Htot.
  destruct (started_now q); unfold_M; simpl; rewrite Hd; simpl;
    unfold call_load; unfold_M; simpl;
    destruct (invoke_all _ _) as [[rc q2] l2]; simpl in *; subst rc;
    rewrite app_nil_r; reflexivity.
Qed.

Lemma update_tasks q r rest d :
  tasks q = r :: rest ->
  heap q !! r = Some d ->
  tasks (state_of (update q)) = rest /\
  completion (update q) = Normal (__loadCount (state_of (update q)) =? 0).
Proof.
  intros Ht Hd. rewrite (update_nonempty q r rest d Ht Hd).
  set (calls := loadFunc d (Bind (name d) true) (Bind (name d) false)).
  set (q1 := set_tasks rest (if started_now q then set_loading true q else q)).
  destruct (invoke_all_same_queue calls q1) as (Htasks & _).
  unfold state_of, completion in *. simpl. split; [|reflexivity].
  rewrite Htasks. reflexivity.
Qed.



(** The started event of one [update]: dispatched, with [current = 0] and the
    [total] counter, exactly when the pending list is non-empty and as long as
    the asset list. *)
Lemma update_started (q : AssetLoader) (r : nat) (rest : list nat) (d : Descriptor) :
  tasks q = r :: rest ->
  heap q !! r = Some d ->
  List.filter is_loadStarted (log_of (update q))
    = if started_now q then [loadStarted 0 (total q)] else [].
Proof.
  intros Ht Hd. rewrite (update_nonempty q r rest d Ht Hd).
  set (calls := loadFunc d (Bind (name d) true) (Bind (name d) false)).
  set (q1 := set_tasks rest (if started_now q then set_loading true q else q)).
  pose proof (invoke_all_logs calls q1) as Hlog.
  unfold log_of in *. simpl. rewrite List.filter_app. cbn [List.filter is_loadStarted].
  rewrite (filter_completion_events is_loadStarted (invoke_all calls q1).2)
    by (assumption || (intros e [_ He]; exact He)).
  destruct (started_now q); reflexivity.
Qed.

Lemma update_not_started_when_empty (q : AssetLoader) :
  tasks q = [] -> log_of (update q) = [].
Proof. intros Ht. rewrite update_empty by assumption. reflexivity. Qed.

(** ** Adding a name that is already present *)

Lemma addAs_duplicate q l n args i :
  indexOf (heap q) (assets q) n = Some i ->
  n <> "" ->
  addAs (Some l) n args q = (Throw DuplicateAsset, q, []).
Proof.
  intros Hi Hn. unfold addAs.
  destruct (String.eqb n "") eqn:He; [apply String.eqb_eq in He; contradiction|].
  rewrite M_bind_unfold. unfold get at 1. cbv beta iota. rewrite Hi. reflexivity.
Qed.

Lemma addAs_existing_throws q l n args i :
  indexOf (heap q) (assets q) n = Some i ->
  exists e, addAs l n args q = (Throw e, q, []).
Proof.
  intros Hi. destruct (String.eqb n "") eqn:He.
  - exists MissingName_addAs. unfold addAs. rewrite He. reflexivity.
  - destruct l as [l|].
    + exists DuplicateAsset. apply (addAs_duplicate q l n args i Hi).
      intros ->. discriminate.
    + exists (NoLoaderGiven n). unfold addAs. rewrite He. reflexivity.
Qed.

Lemma add_registered q n args l :
  n <> "" ->
  add_ext n <> "" ->
  loaders q !! add_ext n = Some l ->
  add n args q = addAs (Some l) n args q.
Proof.
  intros Hn Hx Hl. unfold add.
  destruct (String.eqb n "") eqn:He; [apply String.eqb_eq in He; contradiction|].
  cbv zeta.
  destruct (String.eqb (add_ext n) "") eqn:Hxe; [apply String.eqb_eq in Hxe; contradiction|].
  rewrite M_bind_unfold. unfold get at 1. cbv beta iota. rewrite Hl.
  destruct (addAs (Some l) n args q) as [[rc q1] l1]. reflexivity.
Qed.

Lemma add_unresolved q n args :
  n = "" \/ add_ext n = "" \/ loaders q !! add_ext n = None ->
  exists e, add n args q = (Throw e, q, []).
Proof.
  intros H. unfold add.
  destruct (String.eqb n "") eqn:He; [exists MissingName_add; reflexivity|].
  cbv zeta.
  destruct (String.eqb (add_ext n) "") eqn:Hxe; [exists (NoExtension n); reflexivity|].
  destruct H as [->|[Hx|Hl]].
  - discriminate.
  - rewrite Hx in Hxe. discriminate.
  - exists (NoLoaderFound (add_ext n) n).
    rewrite M_bind_unfold. unfold get at 1. cbv beta iota. rewrite Hl. reflexivity.
Qed.

Lemma addAs_existing_exact q l n args i :
  indexOf (heap q) (assets q) n = Some i ->
  addAs l n args q =
    (Throw (if String.eqb n "" then MissingName_addAs
            else match l with
                 | None => NoLoaderGiven n
                 | Some _ => DuplicateAsset
                 end), q, []).
Proof.
  intros Hi. destruct (String.eqb n "") eqn:He.
  - unfold addAs. rewrite He. reflexivity.
  - destruct l as [l|].
    + apply (addAs_duplicate q l n args i Hi). intros ->. discriminate.
    + unfold addAs. rewrite He. reflexivity.
Qed.

Lemma add_existing_exact q n args i :
  indexOf (heap q) (assets q) n = Some i ->
  add n args q =
    (Throw (if String.eqb n "" then MissingName_add
            else if String.eqb (add_ext n) "" then NoExtension n
            else match loaders q !! add_ext n with
                 | None => NoLoaderFound (add_ext n) n
                 | Some _ => DuplicateAsset
                 end), q, []).
Proof.
  intros Hi. destruct (String.eqb n "") eqn:He.
  { unfold add. rewrite He. reflexivity. }
  destruct (String.eqb (add_ext n) "") eqn:Hxe.
  { unfold add. rewrite He. cbv zeta. rewrite Hxe. reflexivity. }
  assert (Hn : n <> "") by (intros ->; discriminate).
  assert (Hx : add_ext n <> "") by (intros Hx; rewrite Hx in Hxe; discriminate).
  destruct (loaders q !! add_ext n) as [l|] eqn:Hl.
  - rewrite (add_registered q n args l Hn Hx Hl).
    apply (addAs_duplicate q l n args i Hi Hn).
  - unfold add. rewrite He. cbv zeta. rewrite Hxe.
    rewrite M_bind_unfold. unfold get at 1. cbv beta iota. rewrite Hl. reflexivity.
Qed.

(** C9, as the code has it.  When a descriptor named [n] is present, every
    [add] or [addAs] call for [n] throws and leaves the queue state as it was,
    with no event.  The thrown value is the one of the first guard that
    applies.  For [addAs]: the missing-name error for the empty name, the
    no-loader error when no loader is given, and the duplicate-asset error
    otherwise.  For [add]: the missing-name error for the empty name, the
    no-extension error when the name gives no key, the no-known-loader error
    when the registry has no loader for the key, and the duplicate-asset error
    otherwise.  Each of the other errors differs from the duplicate-asset
    error, so that one is thrown exactly when the call gets as far as the
    lookup. *)
Theorem add_existing_name_throws (q : AssetLoader) (n : string) (i : nat) :
  indexOf (heap q) (assets q) n = Some i ->
  (forall l args,
     addAs l n args q =
       (Throw (if String.eqb n "" then MissingName_addAs
               else match l with
                    | None => NoLoaderGiven n
                    | Some _ => DuplicateAsset
                    end), q, [])) /\
  (forall args,
     add n args q =
       (Throw (if String.eqb n "" then MissingName_add
               else if String.eqb (add_ext n) "" then NoExtension n
               else match loaders q !! add_ext n with
                    | None => NoLoaderFound (add_ext n) n
                    | Some _ => DuplicateAsset
                    end), q, [])) /\
  (n <> "" -> forall l args, addAs (Some l) n args q = (Throw DuplicateAsset, q, [])) /\
  (n <> "" -> add_ext n <> "" -> forall l args,
     loaders q !! add_ext n = Some l ->
     add n args q = (Throw DuplicateAsset, q, [])) /\
  (MissingName_addAs <> DuplicateAsset /\ NoLoaderGiven n <> DuplicateAsset /\
   MissingName_add <> DuplicateAsset /\ NoExtension n <> DuplicateAsset /\
   NoLoaderFound (add_ext n) n <> DuplicateAsset).
Proof.
  intros Hi. split; [|split; [|split; [|split]]].
  - intros l args. apply (addAs_existing_exact q l n args i Hi).
  - intros args. apply (add_existing_exact q n args i Hi).
  - intros Hn l args. apply (addAs_duplicate q l n args i Hi Hn).
  - intros Hn Hx l args Hl. rewrite (add_registered q n args l Hn Hx Hl).
    apply (addAs_duplicate q l n args i Hi Hn).
  - unfold MissingName_addAs, NoLoaderGiven, MissingName_add, NoExtension, NoLoaderFound,
      DuplicateAsset.
    repeat split; intros H; cbv in H; discriminate H.
Qed.

Lemma add_existing_name_throws_witness :
  add "x.png" [] one_image = (Throw DuplicateAsset, one_image, []) /\
  addAs (Some ImageLoader) "x.png" [] one_image = (Throw DuplicateAsset, one_image, []) /\
  addAs None "x.png" [] one_image = (Throw (NoLoaderGiven "x.png"), one_image, []).
Proof.
  destruct (add_existing_name_throws one_image "x.png" 0%nat) as (Hany & _ & Has & Hadd & _);
    [reflexivity|].
  split; [|split].
  - apply (Hadd ltac:(discriminate) ltac:(discriminate) ImageLoader []). reflexivity.
  - apply (Has ltac:(discriminate) ImageLoader []).
  - apply (Hany None []).
Defined.

(** C9 as stated fails: a descriptor added under a generic name with [addAs]
    is present, and [add] for that name throws the no-extension error, not the
    duplicate-asset error. *)
Lemma add_existing_generic_name_not_duplicate :
  let q := state_of (addAs (Some ImageLoader) "sprite" [] fresh) in
  getDescriptor q "sprite" = Some 0%nat /\
  add "sprite" [] q = (Throw (NoExtension "sprite"), q, []) /\
  completion (add "sprite" [] q) <> Throw DuplicateAsset.
Proof.
  cbv zeta. split; [reflexivity|]. split; [reflexivity|].
  intros H. vm_compute in H. discriminate H.
Qed.

(** ** Data URIs without a comma *)

Lemma data_prefix (n : string) :
  String.prefix "data:" n = true ->
  exists rest, n = String "d" (String "a" (String "t" (String "a" (String ":" rest)))).
Proof.
  intros H.
  destruct n as [|c0 [|c1 [|c2 [|c3 [|c4 rest]]]]]; simpl in H;
    repeat match type of H with
           | (if ?c then _ else _) = true => destruct c; [subst|discriminate H]
           | false = true => discriminate H
           end.
  exists rest. reflexivity.
Qed.

Lemma getDataType_no_comma (n : string) :
  String.prefix "data:" n = true ->
  JSString.indexOf "," n = None ->
  __getDataType n = None.
Proof.
  intros Hp Hc. destruct (data_prefix n Hp) as [rest ->].
  cbn in Hc. unfold __getDataType. cbn.
  destruct (JSString.indexOf "," rest); [discriminate Hc | reflexivity].
Qed.

(** C4, as the code has it.  For a name that begins with [data:] and holds no
    comma, [__getDataType] returns [null], and [add] goes on with the file
    extension of the name: it throws and leaves the queue as it was when the
    name has no extension or the registry has no loader for the extension,
    and otherwise it is [addAs] with the loader registered for the
    extension. *)
Theorem data_uri_without_comma_uses_extension (q : AssetLoader) (n : string)
    (args : list JSValue) :
  String.prefix "data:" n = true ->
  JSString.indexOf "," n = None ->
  __getDataType n = None /\
  add_ext n = __extension n /\
  (__extension n = "" \/ loaders q !! __extension n = None ->
     exists e, add n args q = (Throw e, q, [])) /\
  (forall l, __extension n <> "" -> loaders q !! __extension n = Some l ->
     add n args q = addAs (Some l) n args q).
Proof.
  intros Hp Hc. pose proof (getDataType_no_comma n Hp Hc) as Hg.
  assert (Hx : add_ext n = __extension n) by (unfold add_ext; rewrite Hg; reflexivity).
  repeat split; try assumption.
  - intros H. apply add_unresolved. rewrite Hx. right. exact H.
  - intros l Hne Hl. apply add_registered; rewrite ?Hx; try assumption.
    intros ->. discriminate Hp.
Qed.

Lemma data_uri_without_comma_uses_extension_witness :
  __getDataType "data:sprite" = None /\
  exists e, add "data:sprite" [] fresh = (Throw e, fresh, []).
Proof.
  destruct (data_uri_without_comma_uses_extension fresh "data:sprite" [])
    as (Hg & _ & Hthrow & _); [reflexivity | reflexivity |].
  split; [exact Hg|]. apply Hthrow. left. reflexivity.
Defined.

(** C4 as stated fails: ["data:a.png"] begins with [data:] and holds no
    comma, yet with the default registry [add] resolves the key ["png"],
    returns normally and appends a descriptor. *)
Lemma data_uri_without_comma_is_added :
  String.prefix "data:" "data:a.png" = true /\
  JSString.indexOf "," "data:a.png" = None /\
  add_ext "data:a.png" = "png" /\
  completion (add "data:a.png" [] fresh) = Normal Image /\
  ~ (exists e, add "data:a.png" [] fresh = (Throw e, fresh, [])) /\
  assets fresh = [] /\
  assets (state_of (add "data:a.png" [] fresh)) = [0%nat] /\
  getStatus (state_of (add "data:a.png" [] fresh)) "data:a.png" = JSStr "QUEUED".
Proof.
  repeat split; try reflexivity.
  intros [e He]. apply (f_equal completion) in He. vm_compute in He. discriminate He.
Qed.

(** ** How one method changes descriptors and the [total] counter *)

Lemma step_rel_refl b q : step_rel b q q.
Proof.
  repeat split; auto. intros _ r d Hd. exists d. auto.
Qed.

Lemma step_rel_trans b q1 q2 q3 : step_rel b q1 q2 -> step_rel b q2 q3 -> step_rel b q1 q3.
Proof.
  intros (Hn1 & Ht1 & Hk1) (Hn2 & Ht2 & Hk2). repeat split; auto.
  intros Hb r d Hd.
  destruct (Hk1 Hb r d Hd) as (d' & Hd' & Hname' & Hs').
  destruct (Hk2 Hb r d' Hd') as (d'' & Hd'' & Hname'' & Hs'').
  exists d''. split; [exact Hd''|]. split; [congruence|].
  destruct Hs'' as [Hs''|Hs'']; [|auto].
  rewrite Hs''. exact Hs'.
Qed.

Lemma step_rel_weaken q q' : step_rel false q q' -> step_rel true q q'.
Proof. intros (Hn & Ht & _). repeat split; auto. discriminate. Qed.

Lemma step_rel_same_heap b q q' :
  heap q' = heap q ->
  (0 <= __totalItems q -> 0 <= __totalItems q') ->
  step_rel b q q'.
Proof.
  intros Hh Ht. unfold step_rel, no_loading, keeps_status. rewrite Hh.
  repeat split; auto. intros _ r d Hd. exists d. auto.
Qed.

Lemma step_rel_alloc b q d :
  status d <> JSStr "LOADING" ->
  step_rel b q (set_heap (heap q ++ [d]) q).
Proof.
  intros Hs. unfold step_rel, no_loading, keeps_status. simpl. repeat split; auto.
  - intros Hq. apply Forall_app. split; [exact Hq|]. repeat constructor. exact Hs.
  - intros _ r d0 Hd. exists d0. split; [|auto].
    apply lookup_app_l_Some. exact Hd.
Qed.

Lemma step_rel_set_status b q r d s :
  heap q !! r = Some d ->
  s <> JSStr "LOADING" ->
  (b = false -> s = Status_ "LOAD_SUCCESS" \/ s = Status_ "LOAD_FAILED") ->
  step_rel b q (set_heap (<[r := set_status s d]> (heap q)) q).
Proof.
  intros Hd Hs Hb. unfold step_rel, no_loading, keeps_status. simpl. repeat split; auto.
  - intros Hq. apply Forall_insert; assumption.
  - intros Hf r0 d0 Hd0. destruct (decide (r = r0)) as [<-|Hne].
    + exists (set_status s d). rewrite list_lookup_insert_eq by (eapply lookup_lt_Some; eauto).
      split; [reflexivity|]. split; [simpl; congruence|]. right. apply Hb. exact Hf.
    + exists d0. rewrite list_lookup_insert_ne by assumption. auto.
Qed.

Create HintDb methods.

(** Closes what [split_method] leaves of a goal [preserves (step_rel b) m]. *)
Ltac step_leaf :=
  first
    [ solve [auto with methods]
    | apply preserves_assign_status; [apply step_rel_refl|];
      intros; apply step_rel_set_status;
      [ assumption
      | repeat match goal with |- context [if ?c then _ else _] => destruct c end;
        discriminate
      | intros; repeat match goal with |- context [if ?c then _ else _] => destruct c end;
        first [discriminate | auto] ]
    | apply preserves_modify; intros;
      first [ apply step_rel_alloc; discriminate
            | apply step_rel_same_heap; [reflexivity | simpl; lia] ] ].

Ltac step_method :=
  pose proof (step_rel_refl false); pose proof (step_rel_trans false);
  pose proof (step_rel_refl true); pose proof (step_rel_trans true);
  split_method; step_leaf.

Lemma __loadCallback_step n s : preserves (step_rel false) (__loadCallback n s).
Proof. unfold __loadCallback. step_method. Qed.
#[local] Hint Resolve __loadCallback_step : methods.

Lemma invoke_all_step calls : preserves (step_rel false) (invoke_all calls).
Proof.
  induction calls as [|[c args] calls IH]; cbn [invoke_all].
  - apply preserves_ret. apply step_rel_refl.
  - apply preserves_bind; [apply step_rel_trans | | intros _; exact IH].
    exact (__loadCallback_step (bound_name c) (JSBool (bound_success c))).
Qed.
#[local] Hint Resolve invoke_all_step : methods.

Lemma update_step : preserves (step_rel false) update.
Proof. unfold update, call_load. step_method. Qed.
#[local] Hint Resolve update_step : methods.

Lemma load_loop_step fuel : preserves (step_rel false) (load_loop fuel).
Proof. induction fuel as [|k IH]; cbn [load_loop]; step_method. Qed.
#[local] Hint Resolve load_loop_step : methods.

Lemma load_step : preserves (step_rel false) load.
Proof. unfold load. step_method. Qed.

Lemma addAs_step l n args : preserves (step_rel false) (addAs l n args).
Proof. unfold addAs. step_method. Qed.
#[local] Hint Resolve addAs_step : methods.

Lemma add_step n args : preserves (step_rel false) (add n args).
Proof. unfold add. step_method. Qed.

Lemma remove_step n : preserves (step_rel false) (remove n).
Proof. unfold remove. step_method. Qed.

Lemma removeAll_step : preserves (step_rel false) removeAll.
Proof. unfold removeAll. step_method. Qed.

Lemma registerLoader_step l : preserves (step_rel false) (registerLoader l).
Proof.
  intros q. unfold registerLoader, state_of.
  destruct l as [f|]; [destruct (registerLoader_ (loaders q) (Some f) _ _)|]; simpl;
    apply step_rel_same_heap; auto.
Qed.

Lemma invalidate_loop_step n i : preserves (step_rel true) (invalidate_loop n i).
Proof. revert i. induction n as [|k IH]; intros i; cbn [invalidate_loop]; step_method. Qed.
#[local] Hint Resolve invalidate_loop_step : methods.

Lemma invalidate_step : preserves (step_rel true) invalidate.
Proof. unfold invalidate. step_method. Qed.

Lemma exec_step op : preserves (step_rel (is_invalidate op)) (exec op).
Proof.
  destruct op; cbn [exec is_invalidate discard];
    try (apply preserves_bind;
         [apply step_rel_trans | | intros _; apply preserves_ret; apply step_rel_refl]).
  - apply add_step.
  - apply addAs_step.
  - apply remove_step.
  - apply removeAll_step.
  - apply update_step.
  - apply load_step.
  - apply invalidate_step.
  - apply registerLoader_step.
  - exact (__loadCallback_step (bound_name c) (JSBool (bound_success c))).
Qed.

Lemma exec_any_step op q : step_rel true q (state_of (exec op q)).
Proof.
  pose proof (exec_step op q) as H. destruct (is_invalidate op); [exact H|].
  apply step_rel_weaken. exact H.
Qed.

Lemma initialize_clean common :
  no_loading (initialize common) /\ __totalItems (initialize common) = 0.
Proof. split; [constructor | reflexivity]. Qed.

Lemma reachable_invariant common q :
  reachable (initialize common) q -> no_loading q /\ 0 <= total q.
Proof.
  induction 1 as [|q op _ [IHn IHt]].
  - destruct (initialize_clean common) as [Hn Ht]. split; [exact Hn|].
    unfold total. rewrite Ht. lia.
  - destruct (exec_any_step op q) as (Hn & Ht & _). split; auto.
Qed.

(** [total] never goes below zero. *)
Lemma total_nonneg common q : reachable (initialize common) q -> 0 <= total q.
Proof. intros H. apply (reachable_invariant common q H). Qed.

(** [update] throws only when the reference it shifts holds no object. *)
Lemma update_dangling q r rest :
  tasks q = r :: rest ->
  heap q !! r = None ->
  completion (update q) = Throw TypeError.
Proof.
  intros Ht Hd. unfold update. rewrite M_bind_unfold. unfold get at 1.
  cbv beta iota. rewrite Ht. unfold_M.
  destruct (Nat.eqb _ _); simpl; rewrite Hd; reflexivity.
Qed.

Lemma load_loop_S k q :
  load_loop (S k) q =
    match tasks q with
    | [] => (Normal tt, q, [])
    | _ :: _ => (update ≫= fun _ => load_loop k) q
    end.
Proof.
  cbn [load_loop]. rewrite M_bind_unfold. unfold get at 1. cbn beta iota zeta.
  destruct (tasks q); [reflexivity|].
  destruct ((update ≫= fun _ => load_loop k) q) as [[rc q1] l1]. reflexivity.
Qed.

(** [load_loop] has fuel enough: it stops with an empty pending list, or
    because [update] threw. *)
Lemma load_loop_drains fuel q :
  (length (tasks q) <= fuel)%nat ->
  tasks (state_of (load_loop fuel q)) = [] \/
  exists e, completion (load_loop fuel q) = Throw e.
Proof.
  revert q. induction fuel as [|k IH]; intros q Hlen.
  - left. destruct (tasks q) eqn:Ht; [exact Ht | simpl in Hlen; lia].
  - rewrite load_loop_S.
    destruct (tasks q) as [|r rest] eqn:Ht; [left; exact Ht|].
    rewrite M_bind_unfold.
    destruct (heap q !! r) as [d|] eqn:Hd.
    + destruct (update_tasks q r rest d Ht Hd) as (Htasks & Hret).
      destruct (update q) as [[rc q1] l1]. unfold completion, state_of in *. simpl in *.
      subst rc.
      assert (Hlen1 : (length (tasks q1) <= k)%nat) by (rewrite Htasks; lia).
      destruct (IH q1 Hlen1) as [Hdone|[e He]];
        destruct (load_loop k q1) as [[rc2 q2] l2]; simpl in *.
      * left. exact Hdone.
      * right. exists e. exact He.
    + right. exists TypeError. pose proof (update_dangling q r rest Ht Hd) as Hthrow.
      destruct (update q) as [[rc q1] l1]. unfold completion in *. simpl in *.
      subst rc. reflexivity.
Qed.

Lemma load_unfold q : load q = load_loop (length (tasks q)) q.
Proof.
  unfold load. rewrite M_bind_unfold. unfold get at 1. cbn beta iota zeta.
  destruct (load_loop (length (tasks q)) q) as [[rc q1] l1]. reflexivity.
Qed.

Lemma load_drains q :
  tasks (state_of (load q)) = [] \/ exists e, completion (load q) = Throw e.
Proof. rewrite load_unfold. apply load_loop_drains. apply le_n. Qed.

(** ** The status of a descriptor over a run *)




(** ** The failure status *)

(** C1: what the code does.  After a failure callback for a present asset
    [getStatus] returns [undefined]: the handler reads [Status.LOAD_FAILED],
    a property the enumeration does not define; the member the enumeration
    defines is [LOAD_FAIL]. *)
Theorem failure_status_is_undefined (q : AssetLoader) (n : string)
    (args : list JSValue) (i : nat) :
  indexOf (heap q) (assets q) n = Some i ->
  getStatus (state_of (invoke (Bind n false) args q)) n = JSUndefined /\
  Status_ "LOAD_FAIL" = JSStr "LOAD_FAIL".
Proof.
  intros Hi. split; [|reflexivity].
  rewrite invoke_eq. simpl. rewrite (getStatus_completed q n (JSBool false) i Hi).
  reflexivity.
Qed.

Lemma failure_status_is_undefined_witness :
  DemoImageLoader_handler (Bind "a.png" true) (Bind "a.png" false) onerror
    = (Bind "a.png" false, []) /\
  getStatus (run [RegisterLoader (Some DemoImageLoader); Add "a.png" []; Update;
                  Complete (Bind "a.png" false) []] fresh).1 "a.png"
    = JSUndefined.
Proof.
  split; [reflexivity|].
  destruct (failure_status_is_undefined
              (run [RegisterLoader (Some DemoImageLoader); Add "a.png" []; Update] fresh).1
              "a.png" [] 0%nat) as [H _]; [reflexivity|].
  exact H.
Defined.

(** ** The counters *)

(** C2: what the code does.  Two images are added and started; the first
    completes and is then removed, which brings [remaining] to zero; the
    completion of the second, still present, brings [remaining] to [-1]. *)
Theorem remaining_below_zero_after_remove :
  let before := run [Add "a.png" []; Add "b.png" []; Update; Update;
                     Complete (Bind "a.png" true) []; Remove "a.png"] fresh in
  let after := run [Complete (Bind "b.png" true) []] before.1 in
  remaining before.1 = 0 /\
  getStatus before.1 "b.png" = JSStr "QUEUED" /\
  before.2 = [loadStarted 0 2;
              loadCall ImageLoader_load (Bind "a.png" true) (Bind "a.png" false);
              loadCall ImageLoader_load (Bind "b.png" true) (Bind "b.png" false);
              loadProgress "a.png" 1 2;
              loadFinished 0 0] /\
  remaining after.1 = -1 /\
  total after.1 = 1 /\
  after.2 = [loadProgress "b.png" 2 1].
Proof. cbv zeta. repeat split; reflexivity. Qed.

(** ** The started event *)

(** C3: what the code does.  Two images are added and the first is started;
    removing the started one makes the pending list as long as the asset list
    again, and the next [update] dispatches a second started event, with no
    [removeAll] or [invalidate] in between. *)
Theorem started_fires_again_after_remove :
  (run [Add "a.png" []; Add "b.png" []; Update; Remove "a.png"; Update] fresh).2
    = [loadStarted 0 2;
       loadCall ImageLoader_load (Bind "a.png" true) (Bind "a.png" false);
       loadStarted 0 1;
       loadCall ImageLoader_load (Bind "b.png" true) (Bind "b.png" false)].
Proof. reflexivity. Qed.

(** ** Loader-key resolution on examples *)

Example getDataType_gif : __getDataType "data:image/GIF;base64,R0lGOD" = Some "gif".
Proof. reflexivity. Qed.

Example getDataType_plain : __getDataType "data:,hello" = Some "txt".
Proof. reflexivity. Qed.

Example getDataType_upper_scheme : __getDataType "DATA:text/html,x" = Some "html".
Proof. reflexivity. Qed.

Example getDataType_not_data : __getDataType "img/scene.png" = None.
Proof. reflexivity. Qed.

Example extension_png : __extension "img/scene.PNG" = "png".
Proof. reflexivity. Qed.

Example extension_none : __extension "sprite" = "".
Proof. reflexivity. Qed.

Example extension_leading_dot : __extension ".png" = "".
Proof. reflexivity. Qed.

Example extension_trailing_dot : __extension "scene." = "".
Proof. reflexivity. Qed.

Example default_registry_keys :
  map (fun k => bool_decide (is_Some (loaders fresh !! k)))
      ["png"; "gif"; "jpg"; "jpeg"; "image/png"; "image/jpeg"; "txt"]
    = [true; true; true; true; true; true; false].
Proof. reflexivity. Qed.

(** * Further properties of the queue *)

(** ** Names and references *)

Lemma fields_kept_refl q : fields_kept q q.
Proof. split; [reflexivity|]. intros r d Hd. exists d. auto. Qed.

Lemma fields_kept_trans q1 q2 q3 :
  fields_kept q1 q2 -> fields_kept q2 q3 -> fields_kept q1 q3.
Proof.
  intros [Hl1 H1] [Hl2 H2]. split; [congruence|].
  intros r d Hd. destruct (H1 r d Hd) as (d' & Hd' & ? & ? & ?).
  destruct (H2 r d' Hd') as (d'' & Hd'' & ? & ? & ?).
  exists d''. repeat split; congruence.
Qed.

Lemma fields_kept_same_heap q q' : heap q' = heap q -> fields_kept q q'.
Proof.
  intros Hh. unfold fields_kept. rewrite Hh. split; [reflexivity|].
  intros r d Hd. exists d. auto.
Qed.

Lemma fields_kept_set_status q r d s :
  heap q !! r = Some d ->
  fields_kept q (set_heap (<[r := set_status s d]> (heap q)) q).
Proof.
  intros Hd. split; [simpl; apply length_insert|].
  intros r0 d0 Hd0. simpl. destruct (decide (r = r0)) as [<-|Hne].
  - exists (set_status s d).
    rewrite list_lookup_insert_eq by (eapply lookup_lt_Some; eauto).
    assert (d0 = d) by congruence. subst d0. auto.
  - exists d0. rewrite list_lookup_insert_ne by assumption. auto.
Qed.

Lemma name_at_kept q q' r : fields_kept q q' -> name_at (heap q') r = name_at (heap q) r.
Proof.
  intros [Hlen Hk]. unfold name_at. destruct (heap q !! r) as [d|] eqn:Hd.
  - destruct (Hk r d Hd) as (d' & -> & Hn & _). simpl. congruence.
  - apply lookup_ge_None in Hd. rewrite <- Hlen in Hd.
    apply lookup_ge_None in Hd. rewrite Hd. reflexivity.
Qed.

Lemma names_cons h r l :
  names h (r :: l) =
    match name_at h r with
    | Some n => n :: names h l
    | None => names h l
    end.
Proof. reflexivity. Qed.

Lemma names_kept q q' l : fields_kept q q' -> names (heap q') l = names (heap q) l.
Proof.
  intros Hk. induction l as [|r l IH]; [reflexivity|].
  rewrite !names_cons, IH, (name_at_kept q q' r Hk). reflexivity.
Qed.

Lemma indexOf_name_at h l n :
  indexOf h l n =
    match l with
    | [] => None
    | r :: l' =>
        if bool_decide (name_at h r = Some n) then Some O
        else option_map S (indexOf h l' n)
    end.
Proof.
  destruct l as [|r l']; [reflexivity|]. cbn [indexOf]. unfold name_at.
  destruct (h !! r) as [d|]; cbn [fmap option_fmap option_map].
  - destruct (String.eqb_spec (name d) n) as [->|Hne]; case_bool_decide;
      congruence || reflexivity.
  - case_bool_decide; [discriminate | reflexivity].
Qed.

Lemma indexOf_ext h h' l n :
  (forall r, r ∈ l -> name_at h' r = name_at h r) ->
  indexOf h' l n = indexOf h l n.
Proof.
  induction l as [|r l IH]; intros H; [reflexivity|].
  rewrite (indexOf_name_at h'), (indexOf_name_at h).
  rewrite H by (left). rewrite IH; [reflexivity|].
  intros r' Hr'. apply H. right. exact Hr'.
Qed.

Lemma indexOf_kept q q' l n :
  fields_kept q q' -> indexOf (heap q') l n = indexOf (heap q) l n.
Proof. intros Hk. apply indexOf_ext. intros r _. apply name_at_kept. exact Hk. Qed.

Lemma indexOf_None_names h l n : indexOf h l n = None <-> n ∉ names h l.
Proof.
  induction l as [|r l IH]; [split; [intros _; apply not_elem_of_nil | reflexivity]|].
  rewrite indexOf_name_at, names_cons.
  destruct (name_at h r) as [m|] eqn:Hm.
  - destruct (decide (m = n)) as [->|Hne].
    + rewrite bool_decide_eq_true_2 by reflexivity. split; [discriminate|].
      intros H. exfalso. apply H. left.
    + rewrite bool_decide_eq_false_2 by congruence.
      rewrite not_elem_of_cons. destruct (indexOf h l n); simpl.
      * split; [discriminate|]. intros [_ H]. apply IH in H. discriminate.
      * split; [|reflexivity]. intros _. split; [congruence|]. apply IH. reflexivity.
  - rewrite bool_decide_eq_false_2 by discriminate.
    destruct (indexOf h l n); simpl.
    + split; [discriminate|]. intros H. apply IH in H. discriminate.
    + split; [|reflexivity]. intros _. apply IH. reflexivity.
Qed.

Lemma indexOf_Some_lookup h l n i :
  indexOf h l n = Some i ->
  exists r, l !! i = Some r /\ name_at h r = Some n.
Proof.
  intros Hi. destruct (indexOf_Some h l n i Hi) as (r & d & Hr & Hd & Hn).
  exists r. split; [exact Hr|]. unfold name_at. rewrite Hd. simpl. congruence.
Qed.

Lemma names_valid_length h l :
  Forall (fun r => (r < length h)%nat) l -> length (names h l) = length l.
Proof.
  induction 1 as [|r l Hr _ IH]; [reflexivity|].
  rewrite names_cons. unfold name_at.
  destruct (lookup_lt_is_Some_2 h r Hr) as [d Hd]. rewrite Hd. simpl. congruence.
Qed.

Lemma names_valid_lookup h l i r :
  Forall (fun r => (r < length h)%nat) l ->
  l !! i = Some r ->
  names h l !! i = name_at h r.
Proof.
  intros Hv. revert i. induction Hv as [|r0 l Hr0 _ IH]; intros i Hi; [discriminate|].
  rewrite names_cons. unfold name_at at 1.
  destruct (lookup_lt_is_Some_2 h r0 Hr0) as [d Hd]. rewrite Hd. simpl.
  destruct i as [|i]; simpl in *.
  - injection Hi as <-. unfold name_at. rewrite Hd. reflexivity.
  - apply IH. exact Hi.
Qed.

(** ** [addAs], [add] and [remove] in closed form *)

Lemma addAs_pushes q l n args ro lf :
  n <> "" ->
  indexOf (heap q) (assets q) n = None ->
  create l n args = Some ro ->
  ret_load ro = Some lf ->
  addAs (Some l) n args q =
    (Normal (ret_value ro),
     pushed q (mkDescriptor n lf (ret_value ro) (Status_ "QUEUED")), []).
Proof.
  intros Hn Hi Hc Hl. unfold addAs.
  destruct (String.eqb n "") eqn:He; [apply String.eqb_eq in He; contradiction|].
  rewrite M_bind_unfold. unfold get at 1. cbv beta iota. rewrite Hi, Hc, Hl.
  reflexivity.
Qed.

Lemma addAs_cases q l n args :
  (exists e, addAs l n args q = (Throw e, q, [])) \/
  (exists f ro lf,
     l = Some f /\ n <> "" /\ indexOf (heap q) (assets q) n = None /\
     create f n args = Some ro /\ ret_load ro = Some lf /\
     addAs l n args q =
       (Normal (ret_value ro),
        pushed q (mkDescriptor n lf (ret_value ro) (Status_ "QUEUED")), [])).
Proof.
  destruct (String.eqb n "") eqn:He.
  { left. exists MissingName_addAs. unfold addAs. rewrite He. reflexivity. }
  destruct l as [f|].
  2:{ left. exists (NoLoaderGiven n). unfold addAs. rewrite He. reflexivity. }
  assert (Hn : n <> "") by (intros ->; discriminate).
  destruct (indexOf (heap q) (assets q) n) as [i|] eqn:Hi.
  { left. exists DuplicateAsset. apply (addAs_duplicate q f n args i Hi Hn). }
  destruct (create f n args) as [ro|] eqn:Hc.
  2:{ left. exists TypeError. unfold addAs. rewrite He, M_bind_unfold.
      unfold get at 1. cbv beta iota. rewrite Hi, Hc. reflexivity. }
  destruct (ret_load ro) as [lf|] eqn:Hl.
  2:{ left. exists MalformedLoader. unfold addAs. rewrite He, M_bind_unfold.
      unfold get at 1. cbv beta iota. rewrite Hi, Hc, Hl. reflexivity. }
  right. exists f, ro, lf. repeat split; try assumption.
  apply addAs_pushes; assumption.
Qed.

Lemma add_cases q n args :
  (exists e, add n args q = (Throw e, q, [])) \/
  (exists f, n <> "" /\ add_ext n <> "" /\ loaders q !! add_ext n = Some f /\
     add n args q = addAs (Some f) n args q).
Proof.
  destruct (String.eqb n "") eqn:He;
    [left; apply add_unresolved; left; apply String.eqb_eq; exact He|].
  destruct (String.eqb (add_ext n) "") eqn:Hxe;
    [left; apply add_unresolved; right; left; apply String.eqb_eq; exact Hxe|].
  destruct (loaders q !! add_ext n) as [f|] eqn:Hl;
    [|left; apply add_unresolved; right; right; exact Hl].
  assert (Hn : n <> "") by (intros ->; discriminate).
  assert (Hx : add_ext n <> "") by (intros Hx; rewrite Hx in Hxe; discriminate).
  right. exists f. repeat split; try assumption.
  apply add_registered; assumption.
Qed.

Lemma remove_absent q n :
  indexOf (heap q) (assets q) n = None ->
  remove n q = (Normal JSNull, q, []).
Proof.
  intros Hi. unfold remove. rewrite M_bind_unfold. unfold get at 1.
  cbv beta iota. rewrite Hi. reflexivity.
Qed.

Lemma remove_present q n i r d :
  indexOf (heap q) (assets q) n = Some i ->
  assets q !! i = Some r ->
  heap q !! r = Some d ->
  remove n q = (Normal (value d), removed q n i, removed_log q).
Proof.
  intros Hi Hr Hd. unfold remove, removed, removed_log.
  rewrite M_bind_unfold. unfold get at 1. cbv beta iota. rewrite Hi, Hr.
  destruct q as [h a t lc ti ld lo]. unfold_M. unfold truthy_loading. simpl in *.
  rewrite Hd. simpl.
  destruct (indexOf h t n) as [j|]; simpl;
    destruct (Z.max 0 (lc - 1) =? 0); simpl;
    destruct ld as [[|]|]; reflexivity.
Qed.

(** ** What a completion keeps *)

Lemma completion_rel_refl q : completion_rel q q.
Proof. split; [apply fields_kept_refl | lia]. Qed.

Lemma completion_rel_trans q1 q2 q3 :
  completion_rel q1 q2 -> completion_rel q2 q3 -> completion_rel q1 q3.
Proof.
  intros [H1 Hc1] [H2 Hc2]. split; [eapply fields_kept_trans; eauto | lia].
Qed.

Lemma __loadCallback_completion_rel n s : preserves completion_rel (__loadCallback n s).
Proof.
  pose proof completion_rel_refl. pose proof completion_rel_trans.
  unfold __loadCallback. split_method;
    first [ apply preserves_assign_status; [assumption|];
            intros q r d Hd; split; [apply fields_kept_set_status; exact Hd | simpl; lia]
          | apply preserves_modify; intros q; split;
            [apply fields_kept_same_heap; reflexivity | simpl; lia] ].
Qed.

Lemma invoke_all_completion_rel calls : preserves completion_rel (invoke_all calls).
Proof.
  induction calls as [|[c args] calls IH]; cbn [invoke_all].
  - apply preserves_ret. apply completion_rel_refl.
  - apply preserves_bind; [apply completion_rel_trans | | intros _; exact IH].
    exact (__loadCallback_completion_rel (bound_name c) (JSBool (bound_success c))).
Qed.

(** ** Lists of references without repetition *)

Lemma filter_all {A : Type} (P : A -> Prop) `{!forall x, Decision (P x)} (l : list A) :
  Forall P l -> filter P l = l.
Proof.
  induction 1 as [|x l Hx _ IH]; [reflexivity|].
  rewrite filter_cons_True by assumption. rewrite IH. reflexivity.
Qed.

Lemma delete_as_filter (l : list nat) (i r : nat) :
  NoDup l -> l !! i = Some r -> delete i l = filter (fun x => x <> r) l.
Proof.
  intros Hnd. revert i. induction Hnd as [|x l Hx Hnd IH]; intros i Hi; [discriminate|].
  destruct i as [|i]; simpl in *.
  - injection Hi as ->. rewrite filter_cons_False by (intros H; apply H; reflexivity).
    symmetry. apply filter_all. apply Forall_forall. intros y Hy ->. contradiction.
  - assert (x <> r) by (intros ->; apply Hx; eapply list_elem_of_lookup_2; eauto).
    rewrite filter_cons_True by assumption. rewrite (IH i Hi). reflexivity.
Qed.

Lemma sublist_filter_mono {A : Type} (P : A -> Prop) `{!forall x, Decision (P x)}
    (l k : list A) :
  l `sublist_of` k -> filter P l `sublist_of` filter P k.
Proof.
  induction 1 as [|x l k _ IH|x l k _ IH].
  - constructor.
  - rewrite !filter_cons. destruct (decide (P x)); [constructor|]; exact IH.
  - rewrite filter_cons. destruct (decide (P x)); [constructor|]; exact IH.
Qed.

Lemma names_app h l k : names h (l ++ k) = names h l ++ names h k.
Proof.
  induction l as [|r l IH]; [reflexivity|].
  rewrite <- app_comm_cons, !names_cons, IH. destruct (name_at h r); reflexivity.
Qed.

Lemma names_sublist h l k : l `sublist_of` k -> names h l `sublist_of` names h k.
Proof.
  induction 1 as [|r l k _ IH|r l k _ IH].
  - constructor.
  - rewrite !names_cons. destruct (name_at h r); [constructor|]; exact IH.
  - rewrite names_cons. destruct (name_at h r); [constructor|]; exact IH.
Qed.

Lemma elem_of_names h l r n : r ∈ l -> name_at h r = Some n -> n ∈ names h l.
Proof.
  intros Hr Hn. unfold names. apply list_elem_of_omap. exists r. auto.
Qed.

Lemma names_NoDup_refs h l : NoDup (names h l) -> Forall (fun r => (r < length h)%nat) l -> NoDup l.
Proof.
  intros Hnd Hv. induction Hv as [|r l Hr Hv IH]; [constructor|].
  rewrite names_cons in Hnd. unfold name_at in Hnd at 1.
  destruct (lookup_lt_is_Some_2 h r Hr) as [d Hd]. rewrite Hd in Hnd. simpl in Hnd.
  apply NoDup_cons in Hnd as [Hn Hnd]. constructor; [|apply IH; exact Hnd].
  intros Hin. apply Hn. apply (elem_of_names h l r); [exact Hin|].
  unfold name_at. rewrite Hd. reflexivity.
Qed.

Lemma names_unique h l r r' n :
  NoDup (names h l) -> r ∈ l -> r' ∈ l ->
  name_at h r = Some n -> name_at h r' = Some n -> r = r'.
Proof.
  intros Hnd Hr Hr' Hn Hn'. induction l as [|x l IH]; [inversion Hr|].
  rewrite names_cons in Hnd.
  apply elem_of_cons in Hr as [->|Hr]; apply elem_of_cons in Hr' as [->|Hr'].
  - reflexivity.
  - rewrite Hn in Hnd. apply NoDup_cons in Hnd as [Hx _]. exfalso. apply Hx.
    apply (elem_of_names h l r'); assumption.
  - rewrite Hn' in Hnd. apply NoDup_cons in Hnd as [Hx _]. exfalso. apply Hx.
    apply (elem_of_names h l r); assumption.
  - apply IH; try assumption.
    destruct (name_at h x); [apply NoDup_cons in Hnd as [_ Hnd]|]; exact Hnd.
Qed.

Lemma names_alloc h d l :
  Forall (fun r => (r < length h)%nat) l -> names (h ++ [d]) l = names h l.
Proof.
  induction 1 as [|r l Hr _ IH]; [reflexivity|].
  rewrite !names_cons, IH. unfold name_at. rewrite lookup_app_l by exact Hr. reflexivity.
Qed.

Lemma indexOf_alloc h d l n :
  Forall (fun r => (r < length h)%nat) l -> indexOf (h ++ [d]) l n = indexOf h l n.
Proof.
  intros Hv. apply indexOf_ext. intros r Hr. unfold name_at.
  rewrite Forall_forall in Hv. rewrite lookup_app_l by (apply Hv; exact Hr). reflexivity.
Qed.

(** ** The invariant *)

Lemma consistent_pushed q d :
  consistent q ->
  indexOf (heap q) (assets q) (name d) = None ->
  consistent (pushed q d).
Proof.
  intros (Hv & Hs & Hnd & Ht & Hl) Hi. unfold consistent, valid_refs, asset_names, pushed.
  simpl. repeat split.
  - apply Forall_app. split.
    + eapply Forall_impl; [exact Hv|]. intros r Hr. simpl in Hr. rewrite length_app. simpl. lia.
    + repeat constructor. rewrite length_app. simpl. lia.
  - apply sublist_app; [exact Hs | reflexivity].
  - rewrite names_app, (names_alloc _ _ _ Hv). rewrite names_cons. unfold name_at.
    rewrite lookup_app_r by lia. rewrite Nat.sub_diag. simpl.
    apply NoDup_app. split; [exact Hnd|]. split; [|apply NoDup_singleton].
    intros x Hx Hx'. apply list_elem_of_singleton in Hx'. subst x.
    apply indexOf_None_names in Hi. contradiction.
  - rewrite length_app. simpl. lia.
  - lia.
Qed.

Lemma consistent_removed q n i :
  consistent q ->
  indexOf (heap q) (assets q) n = Some i ->
  consistent (removed q n i).
Proof.
  intros (Hv & Hs & Hnd & Ht & Hl) Hi.
  destruct (indexOf_Some_lookup _ _ _ _ Hi) as (r & Hr & Hn).
  assert (Hnda : NoDup (assets q)) by (eapply names_NoDup_refs; eauto).
  assert (Hndt : NoDup (tasks q)) by (eapply sublist_NoDup; eauto).
  unfold consistent, valid_refs, asset_names, removed. simpl. repeat split.
  - apply Forall_delete. exact Hv.
  - rewrite (delete_as_filter (assets q) i r Hnda Hr).
    destruct (indexOf (heap q) (tasks q) n) as [j|] eqn:Hj.
    + destruct (indexOf_Some_lookup _ _ _ _ Hj) as (r' & Hr' & Hn').
      assert (r' = r).
      { apply (names_unique (heap q) (assets q) r' r n); try assumption.
        - eapply sublist_subseteq; [exact Hs|]. eapply list_elem_of_lookup_2; eauto.
        - eapply list_elem_of_lookup_2; eauto. }
      subst r'. rewrite (delete_as_filter (tasks q) j r Hndt Hr').
      apply sublist_filter_mono. exact Hs.
    + rewrite <- (filter_all (fun x => x <> r) (tasks q)).
      * apply sublist_filter_mono. exact Hs.
      * apply Forall_forall. intros x Hx ->. apply indexOf_None_names in Hj.
        apply Hj. apply (elem_of_names (heap q) (tasks q) r); assumption.
  - eapply sublist_NoDup; [exact Hnd|]. apply names_sublist. apply sublist_delete.
  - rewrite length_delete by (rewrite Hr; eauto).
    assert (i < length (assets q))%nat by (eapply lookup_lt_Some; eauto). lia.
  - assert (i < length (assets q))%nat by (eapply lookup_lt_Some; eauto). lia.
Qed.

Lemma consistent_completion q q' :
  consistent q -> completion_rel q q' -> same_queue q q' -> consistent q'.
Proof.
  intros (Hv & Hs & Hnd & Ht & Hl) [[Hlen Hk] Hc] (Htasks & Hassets & Htot & _).
  unfold consistent, valid_refs, asset_names in *.
  rewrite Htasks, Hassets, Htot, Hlen.
  rewrite (names_kept q q' (assets q)) by (split; assumption).
  repeat split; try assumption. lia.
Qed.

(** ** [removeAll] and [invalidate] in closed form *)

Lemma removeAll_closed q :
  removeAll q =
    (Normal tt, cleared q, if truthy_loading q then [loadFinished 0 0] else []).
Proof.
  unfold removeAll, cleared. destruct q as [h a t lc ti ld lo].
  unfold_M. unfold truthy_loading. simpl. destruct ld as [[|]|]; reflexivity.
Qed.

Lemma insert_set_status (h : list Descriptor) r d s :
  h !! r = Some d -> <[r := set_status s d]> h = alter (set_status s) r h.
Proof.
  intros Hd. apply list_eq. intros j. destruct (decide (r = j)) as [<-|Hne].
  - rewrite list_lookup_insert_eq by (eapply lookup_lt_Some; eauto).
    rewrite list_lookup_alter_eq, Hd. reflexivity.
  - rewrite list_lookup_insert_ne, list_lookup_alter_ne by assumption. reflexivity.
Qed.

Lemma reset_status_length h l : length (reset_status h l) = length h.
Proof.
  revert h. induction l as [|r l IH]; intros h; [reflexivity|].
  unfold reset_status in *. simpl. rewrite IH. apply length_alter.
Qed.

Lemma reset_status_lookup_out h l r : r ∉ l -> reset_status h l !! r = h !! r.
Proof.
  revert h. induction l as [|x l IH]; intros h Hr; [reflexivity|].
  apply not_elem_of_cons in Hr as [Hne Hr]. unfold reset_status in *. simpl.
  rewrite (IH _ Hr). apply list_lookup_alter_ne. congruence.
Qed.

Lemma reset_status_lookup_in h l r :
  r ∈ l -> reset_status h l !! r = set_status (Status_ "QUEUED") <$> h !! r.
Proof.
  revert h. induction l as [|x l IH]; intros h Hr; [inversion Hr|].
  destruct (decide (r ∈ l)) as [Hin|Hnin].
  - change (reset_status h (x :: l))
      with (reset_status (alter (set_status (Status_ "QUEUED")) x h) l).
    rewrite (IH _ Hin). destruct (decide (x = r)) as [->|Hne].
    + rewrite list_lookup_alter_eq. destruct (h !! r); reflexivity.
    + rewrite list_lookup_alter_ne by assumption. reflexivity.
  - apply elem_of_cons in Hr as [->|Hr]; [|contradiction].
    change (reset_status h (x :: l))
      with (reset_status (alter (set_status (Status_ "QUEUED")) x h) l).
    rewrite (reset_status_lookup_out _ _ _ Hnin). apply list_lookup_alter_eq.
Qed.

Lemma invalidate_loop_closed n i q :
  valid_refs q ->
  (i + n = length (assets q))%nat ->
  invalidate_loop n i q =
    (Normal tt, set_heap (reset_status (heap q) (drop i (assets q))) q, []).
Proof.
  revert i q. induction n as [|k IH]; intros i q Hv Hlen.
  - rewrite drop_ge by lia. destruct q. reflexivity.
  - assert (Hi : (i < length (assets q))%nat) by lia.
    destruct (lookup_lt_is_Some_2 _ _ Hi) as [r Hr].
    assert (Hrv : (r < length (heap q))%nat).
    { unfold valid_refs in Hv. rewrite Forall_lookup in Hv. exact (Hv i r Hr). }
    destruct (lookup_lt_is_Some_2 _ _ Hrv) as [d Hd].
    cbn [invalidate_loop]. rewrite M_bind_unfold. unfold get at 1. cbv beta iota.
    rewrite M_bind_unfold. unfold assign_status at 1. rewrite Hr, Hd.
    rewrite (insert_set_status _ _ _ _ Hd).
    rewrite (IH (S i)).
    + rewrite (drop_S _ _ _ Hr). destruct q. reflexivity.
    + unfold valid_refs. simpl. rewrite length_alter. exact Hv.
    + simpl. lia.
Qed.

Lemma invalidate_closed q :
  valid_refs q -> invalidate q = (Normal tt, invalidated q, []).
Proof.
  intros Hv. unfold invalidate. rewrite M_bind_unfold. unfold get at 1. cbv beta iota.
  rewrite M_bind_unfold.
  rewrite (invalidate_loop_closed (length (assets q)) 0 q Hv) by lia.
  destruct q. reflexivity.
Qed.

Lemma fields_kept_reset q :
  fields_kept q (set_heap (reset_status (heap q) (assets q)) q).
Proof.
  split; [simpl; apply reset_status_length|].
  intros r d Hd. simpl. destruct (decide (r ∈ assets q)) as [Hin|Hout].
  - exists (set_status (Status_ "QUEUED") d).
    rewrite (reset_status_lookup_in _ _ _ Hin), Hd. auto.
  - exists d. rewrite (reset_status_lookup_out _ _ _ Hout). auto.
Qed.

Lemma consistent_invalidated q : consistent q -> consistent (invalidated q).
Proof.
  intros (Hv & Hs & Hnd & Ht & Hl).
  unfold consistent, valid_refs, asset_names, invalidated in *. simpl.
  rewrite reset_status_length.
  change (reset_status (heap q) (assets q))
    with (heap (set_heap (reset_status (heap q) (assets q)) q)).
  rewrite (names_kept q _ (assets q) (fields_kept_reset q)).
  repeat split; try assumption; [reflexivity | lia].
Qed.

Lemma consistent_cleared q : consistent (cleared q).
Proof.
  unfold consistent, valid_refs, asset_names, cleared. simpl.
  repeat split; try constructor. lia.
Qed.

Lemma consistent_set_loaders q m : consistent q -> consistent (set_loaders m q).
Proof. intros H. exact H. Qed.

Lemma consistent_head_valid q r rest :
  consistent q -> tasks q = r :: rest -> is_Some (heap q !! r).
Proof.
  intros (Hv & Hs & _) Ht. apply lookup_lt_is_Some_2.
  unfold valid_refs in Hv. rewrite Forall_forall in Hv. apply Hv.
  eapply sublist_subseteq; [exact Hs|]. rewrite Ht. left.
Qed.

Lemma consistent_update q : consistent q -> consistent (state_of (update q)).
Proof.
  intros Hc. destruct (tasks q) as [|r rest] eqn:Ht.
  - rewrite update_empty by assumption. exact Hc.
  - destruct (consistent_head_valid q r rest Hc Ht) as [d Hd].
    rewrite (update_nonempty q r rest d Ht Hd).
    set (calls := loadFunc d (Bind (name d) true) (Bind (name d) false)).
    set (q1 := set_tasks rest (if started_now q then set_loading true q else q)).
    change (consistent (state_of (invoke_all calls q1))).
    apply (consistent_completion q1).
    + destruct Hc as (Hv & Hs & Hnd & Htot & Hl).
      unfold consistent, valid_refs, asset_names, q1 in *.
      destruct (started_now q); simpl; repeat split; try assumption;
        (etransitivity; [|exact Hs]); rewrite Ht; apply sublist_cons; reflexivity.
    + apply invoke_all_completion_rel.
    + apply invoke_all_same_queue.
Qed.

Lemma consistent_load_loop fuel q : consistent q -> consistent (state_of (load_loop fuel q)).
Proof.
  revert q. induction fuel as [|k IH]; intros q Hc; [exact Hc|].
  rewrite load_loop_S. destruct (tasks q) as [|r rest] eqn:Ht; [exact Hc|].
  rewrite M_bind_unfold. pose proof (consistent_update q Hc) as Hu.
  destruct (update q) as [[[b|e] q1] l1]; unfold state_of in *; simpl in *.
  - specialize (IH q1 Hu). destruct (load_loop k q1) as [[rc q2] l2]. exact IH.
  - exact Hu.
Qed.

Lemma consistent_addAs l n args q : consistent q -> consistent (state_of (addAs l n args q)).
Proof.
  intros Hc. destruct (addAs_cases q l n args) as [[e ->]|(f & ro & lf & _ & _ & Hi & _ & _ & ->)].
  - exact Hc.
  - apply consistent_pushed; assumption.
Qed.

Lemma consistent_add n args q : consistent q -> consistent (state_of (add n args q)).
Proof.
  intros Hc. destruct (add_cases q n args) as [[e ->]|(f & _ & _ & _ & ->)].
  - exact Hc.
  - apply consistent_addAs. exact Hc.
Qed.

Lemma consistent_remove n q : consistent q -> consistent (state_of (remove n q)).
Proof.
  intros Hc. destruct (indexOf (heap q) (assets q) n) as [i|] eqn:Hi.
  - destruct (indexOf_Some _ _ _ _ Hi) as (r & d & Hr & Hd & _).
    rewrite (remove_present q n i r d Hi Hr Hd). apply consistent_removed; assumption.
  - rewrite remove_absent by assumption. exact Hc.
Qed.

Lemma state_of_discard {A : Type} (m : M A) q : state_of (discard m q) = state_of (m q).
Proof.
  unfold discard. rewrite M_bind_unfold. destruct (m q) as [[[a|e] q1] l1]; reflexivity.
Qed.

Lemma consistent_exec op q : consistent q -> consistent (state_of (exec op q)).
Proof.
  intros Hc. destruct op; cbn [exec]; rewrite ?state_of_discard.
  - apply consistent_add. exact Hc.
  - apply consistent_addAs. exact Hc.
  - apply consistent_remove. exact Hc.
  - rewrite removeAll_closed. apply consistent_cleared.
  - apply consistent_update. exact Hc.
  - rewrite load_unfold. apply consistent_load_loop. exact Hc.
  - rewrite invalidate_closed by apply Hc. apply consistent_invalidated. exact Hc.
  - unfold registerLoader, state_of.
    destruct loader as [f|]; [destruct (registerLoader_ (loaders q) (Some f) _ _)|]; exact Hc.
  - apply (consistent_completion q); [exact Hc | |].
    + exact (__loadCallback_completion_rel (bound_name c) (JSBool (bound_success c)) q).
    + exact (__loadCallback_same_queue (bound_name c) (JSBool (bound_success c)) q).
Qed.

Lemma consistent_initialize common : consistent (initialize common).
Proof.
  unfold consistent, valid_refs, asset_names. simpl. repeat split; try constructor. lia.
Qed.

Lemma reachable_consistent common q : reachable (initialize common) q -> consistent q.
Proof.
  induction 1 as [|q op _ IH]; [apply consistent_initialize|].
  apply consistent_exec. exact IH.
Qed.

Lemma run_reachable q0 ops q : reachable q0 q -> reachable q0 (run ops q).1.
Proof.
  revert q. induction ops as [|op ops IH]; intros q Hq; [exact Hq|].
  simpl. apply IH. constructor. exact Hq.
Qed.

Lemma sublist_same_length {A : Type} (l k : list A) :
  l `sublist_of` k -> length l = length k -> l = k.
Proof.
  induction 1 as [|x l k _ IH|x l k Hs _]; intros Hlen.
  - reflexivity.
  - simpl in Hlen. f_equal. apply IH. lia.
  - apply sublist_length in Hs. simpl in Hlen. lia.
Qed.

(** ** Invariants of a queue built by the constructor *)

(** X1.  On every queue reached from the constructor, [total] is the number
    of descriptors in the asset list and [remaining] is at most [total], so
    [current] is never negative. *)
Theorem total_is_number_of_assets (common : gmap string Loader) (q : AssetLoader) :
  reachable (initialize common) q ->
  total q = Z.of_nat (length (assets q)) /\ remaining q <= total q /\ 0 <= current q.
Proof.
  intros Hq. destruct (reachable_consistent common q Hq) as (_ & _ & _ & Ht & Hl).
  unfold current, total, remaining. split; [exact Ht|]. split; [exact Hl | lia].
Qed.

Lemma total_is_number_of_assets_witness :
  total two_images_first_started = 2 /\ 0 <= current two_images_first_started.
Proof.
  destruct (total_is_number_of_assets ∅ two_images_first_started) as (Ht & _ & Hc).
  - apply (run_reachable fresh [Add "a.png" []; Add "b.gif" []; Update] fresh).
    apply reachable_init.
  - split; [exact Ht | exact Hc].
Defined.

(** X2.  On every queue reached from the constructor, every entry of the
    asset list holds a descriptor and no two of them have the same name. *)
Theorem asset_names_are_unique (common : gmap string Loader) (q : AssetLoader) :
  reachable (initialize common) q ->
  length (asset_names q) = length (assets q) /\
  NoDup (asset_names q) /\
  (forall i j r r' n,
     assets q !! i = Some r -> assets q !! j = Some r' ->
     name_at (heap q) r = Some n -> name_at (heap q) r' = Some n -> i = j).
Proof.
  intros Hq. destruct (reachable_consistent common q Hq) as (Hv & _ & Hnd & _).
  split; [apply names_valid_length; exact Hv|]. split; [exact Hnd|].
  intros i j r r' n Hi Hj Hn Hn'.
  apply (NoDup_lookup (asset_names q) i j n Hnd); unfold asset_names.
  - rewrite (names_valid_lookup _ _ i r Hv Hi). exact Hn.
  - rewrite (names_valid_lookup _ _ j r' Hv Hj). exact Hn'.
Qed.

Lemma asset_names_are_unique_witness :
  asset_names two_images_first_started = ["a.png"; "b.gif"] /\
  NoDup (asset_names two_images_first_started).
Proof.
  destruct (asset_names_are_unique ∅ two_images_first_started) as (_ & Hnd & _).
  - apply (run_reachable fresh [Add "a.png" []; Add "b.gif" []; Update] fresh).
    apply reachable_init.
  - split; [reflexivity | exact Hnd].
Defined.

(** X3.  On every queue reached from the constructor, the pending list is
    the asset list with some entries left out, in the same order; so the test
    that guards the started event holds exactly when every descriptor of the
    queue is pending. *)
Theorem pending_list_within_asset_list (common : gmap string Loader) (q : AssetLoader) :
  reachable (initialize common) q ->
  tasks q `sublist_of` assets q /\
  (started_now q = true <-> tasks q = assets q).
Proof.
  intros Hq. destruct (reachable_consistent common q Hq) as (_ & Hs & _).
  split; [exact Hs|]. unfold started_now. rewrite Nat.eqb_eq. split.
  - apply sublist_same_length. exact Hs.
  - intros ->. reflexivity.
Qed.

Lemma pending_list_within_asset_list_witness :
  tasks two_images_first_started `sublist_of` assets two_images_first_started /\
  started_now two_images_first_started = false.
Proof.
  destruct (pending_list_within_asset_list ∅ two_images_first_started) as (Hs & _).
  - apply (run_reachable fresh [Add "a.png" []; Add "b.gif" []; Update] fresh).
    apply reachable_init.
  - split; [exact Hs | reflexivity].
Defined.

(** ** Looking a name up in a consistent queue *)

Lemma getDescriptor_Some q m r :
  getDescriptor q m = Some r -> r ∈ assets q /\ name_at (heap q) r = Some m.
Proof.
  unfold getDescriptor. destruct (indexOf (heap q) (assets q) m) as [i|] eqn:Hi; [|discriminate].
  intros Hr. destruct (indexOf_Some_lookup _ _ _ _ Hi) as (r' & Hr' & Hn).
  assert (r' = r) by congruence. subst r'. split; [|exact Hn].
  eapply list_elem_of_lookup_2; eauto.
Qed.

Lemma getDescriptor_iff q m r :
  consistent q ->
  getDescriptor q m = Some r <-> r ∈ assets q /\ name_at (heap q) r = Some m.
Proof.
  intros (Hv & _ & Hnd & _). split; [apply getDescriptor_Some|].
  intros [Hin Hn]. unfold getDescriptor.
  destruct (indexOf (heap q) (assets q) m) as [i|] eqn:Hi.
  - destruct (indexOf_Some_lookup _ _ _ _ Hi) as (r' & Hr' & Hn'). rewrite Hr'. f_equal.
    apply (names_unique (heap q) (assets q) r' r m); try assumption.
    eapply list_elem_of_lookup_2; eauto.
  - apply indexOf_None_names in Hi. exfalso. apply Hi.
    apply (elem_of_names (heap q) (assets q) r); assumption.
Qed.

Lemma getDescriptor_ext q q' m :
  consistent q -> consistent q' ->
  (forall r, (r ∈ assets q' /\ name_at (heap q') r = Some m) <->
             (r ∈ assets q /\ name_at (heap q) r = Some m)) ->
  getDescriptor q' m = getDescriptor q m.
Proof.
  intros Hc Hc' H.
  destruct (getDescriptor q m) as [r|] eqn:Hg.
  - apply getDescriptor_iff; [exact Hc'|]. apply H. apply getDescriptor_iff; assumption.
  - destruct (getDescriptor q' m) as [r'|] eqn:Hg'; [|reflexivity].
    apply (getDescriptor_iff q' m r' Hc') in Hg'. apply H in Hg'.
    apply (getDescriptor_iff q m r' Hc) in Hg'. congruence.
Qed.

Lemma getDescriptor_valid q m r :
  valid_refs q -> getDescriptor q m = Some r -> (r < length (heap q))%nat.
Proof.
  intros Hv Hg. apply getDescriptor_Some in Hg as [Hin _].
  unfold valid_refs in Hv. rewrite Forall_forall in Hv. apply Hv. exact Hin.
Qed.

Lemma indexOf_app h l k n :
  indexOf h (l ++ k) n =
    match indexOf h l n with
    | Some i => Some i
    | None => option_map (fun j => (length l + j)%nat) (indexOf h k n)
    end.
Proof.
  induction l as [|r l IH]; [simpl; destruct (indexOf h k n); reflexivity|].
  rewrite <- app_comm_cons. rewrite (indexOf_name_at h (r :: l ++ k)), (indexOf_name_at h (r :: l)).
  case_bool_decide; [reflexivity|]. rewrite IH.
  destruct (indexOf h l n); [reflexivity|]. destruct (indexOf h k n); reflexivity.
Qed.

(** ** Adding *)

Lemma getDescriptor_pushed q d :
  valid_refs q ->
  indexOf (heap q) (assets q) (name d) = None ->
  getDescriptor (pushed q d) (name d) = Some (length (heap q)).
Proof.
  intros Hv Hi. unfold getDescriptor, pushed. simpl.
  rewrite indexOf_app, (indexOf_alloc _ _ _ _ Hv), Hi.
  rewrite (indexOf_name_at _ [length (heap q)]). unfold name_at.
  rewrite lookup_app_r by lia. rewrite Nat.sub_diag. simpl.
  rewrite bool_decide_eq_true_2 by reflexivity. simpl.
  rewrite lookup_app_r by lia. rewrite Nat.add_0_r, Nat.sub_diag. reflexivity.
Qed.

Lemma getDescriptor_pushed_other q d m :
  valid_refs q ->
  m <> name d ->
  getDescriptor (pushed q d) m = getDescriptor q m.
Proof.
  intros Hv Hm. unfold getDescriptor, pushed. simpl.
  rewrite indexOf_app, (indexOf_alloc _ _ _ _ Hv).
  destruct (indexOf (heap q) (assets q) m) as [i|] eqn:Hi.
  - destruct (indexOf_Some _ _ _ _ Hi) as (r & _ & Hr & _).
    apply lookup_app_l. eapply lookup_lt_Some; eauto.
  - rewrite (indexOf_name_at _ [length (heap q)]). unfold name_at.
    rewrite lookup_app_r by lia. rewrite Nat.sub_diag. simpl.
    rewrite bool_decide_eq_false_2 by congruence. reflexivity.
Qed.

(** X4.  [addAs] with a name that is not empty and not yet present, and a
    loader whose result has a [load] function, returns the loader's value
    with no event; the new descriptor is last in both lists, is [QUEUED] and
    not loaded, [get] returns the loader's value for it, both counters grow
    by one, and the status and value of every other name are as before. *)
Theorem addAs_appends_queued_descriptor (q : AssetLoader) (l : Loader) (n : string)
    (args : list JSValue) (ro : RetObj) (lf : LoadFunc) :
  valid_refs q ->
  n <> "" ->
  indexOf (heap q) (assets q) n = None ->
  create l n args = Some ro ->
  ret_load ro = Some lf ->
  let res := addAs (Some l) n args q in
  let q' := state_of res in
  completion res = Normal (ret_value ro) /\ log_of res = [] /\
  assets q' = assets q ++ [length (heap q)] /\
  tasks q' = tasks q ++ [length (heap q)] /\
  remaining q' = remaining q + 1 /\ total q' = total q + 1 /\
  getStatus q' n = JSStr "QUEUED" /\ get_ q' n = ret_value ro /\ isLoaded q' n = false /\
  (forall m, m <> n -> getStatus q' m = getStatus q m /\ get_ q' m = get_ q m).
Proof.
  intros Hv Hn Hi Hc Hl. cbv zeta. rewrite (addAs_pushes q l n args ro lf Hn Hi Hc Hl).
  set (d := mkDescriptor n lf (ret_value ro) (Status_ "QUEUED")).
  assert (Hg : getDescriptor (pushed q d) n = Some (length (heap q)))
    by (apply (getDescriptor_pushed q d Hv); exact Hi).
  assert (Hd : heap (pushed q d) !! length (heap q) = Some d).
  { simpl. rewrite lookup_app_r by lia. rewrite Nat.sub_diag. reflexivity. }
  unfold completion, state_of, log_of, isLoaded, getStatus, get_. simpl fst. simpl snd.
  rewrite Hg, Hd. repeat split.
  intros; unfold getStatus, get_; rewrite (getDescriptor_pushed_other q d m Hv) by assumption;
    destruct (getDescriptor q m) as [r|] eqn:Hgm; try reflexivity;
    simpl; rewrite lookup_app_l by (eapply getDescriptor_valid; eauto); reflexivity.
  intros; unfold getStatus, get_; rewrite (getDescriptor_pushed_other q d m Hv) by assumption;
    destruct (getDescriptor q m) as [r|] eqn:Hgm; try reflexivity;
    simpl; rewrite lookup_app_l by (eapply getDescriptor_valid; eauto); reflexivity.
Qed.

Lemma addAs_appends_queued_descriptor_witness :
  getStatus (state_of (addAs (Some ImageLoader) "sprite" [] one_image)) "sprite" = JSStr "QUEUED" /\
  getStatus (state_of (addAs (Some ImageLoader) "sprite" [] one_image)) "x.png" = JSStr "QUEUED" /\
  total (state_of (addAs (Some ImageLoader) "sprite" [] one_image)) = 2.
Proof.
  destruct (addAs_appends_queued_descriptor one_image ImageLoader "sprite" []
              (mkRetObj Image (Some ImageLoader_load)) ImageLoader_load)
    as (_ & _ & _ & _ & _ & Ht & Hs & _ & _ & Ho).
  - repeat constructor.
  - discriminate.
  - reflexivity.
  - reflexivity.
  - reflexivity.
  - split; [exact Hs|]. split; [|exact Ht].
    destruct (Ho "x.png") as [Hx _]; [discriminate|]. rewrite Hx. reflexivity.
Defined.

(** ** Removing *)

Lemma getDescriptor_None q n : getDescriptor q n = None -> indexOf (heap q) (assets q) n = None.
Proof.
  unfold getDescriptor. destruct (indexOf (heap q) (assets q) n) as [i|] eqn:Hi; [|reflexivity].
  destruct (indexOf_Some _ _ _ _ Hi) as (r & _ & Hr & _). rewrite Hr. discriminate.
Qed.

Lemma removed_assets_elem q n i r x :
  consistent q ->
  assets q !! i = Some r ->
  x ∈ assets (removed q n i) <-> x ∈ assets q /\ x <> r.
Proof.
  intros (Hv & _ & Hnd & _) Hr. simpl.
  rewrite (delete_as_filter (assets q) i r) by (eauto using names_NoDup_refs).
  rewrite list_elem_of_filter. tauto.
Qed.

Lemma getDescriptor_removed q n i :
  consistent q ->
  indexOf (heap q) (assets q) n = Some i ->
  getDescriptor (removed q n i) n = None.
Proof.
  intros Hc Hi. destruct (indexOf_Some_lookup _ _ _ _ Hi) as (r & Hr & Hn).
  pose proof (consistent_removed q n i Hc Hi) as Hc'.
  destruct (getDescriptor (removed q n i) n) as [r'|] eqn:Hg; [|reflexivity].
  exfalso. apply (getDescriptor_iff _ _ _ Hc') in Hg as [Hin Hn'].
  apply (removed_assets_elem q n i r r' Hc Hr) in Hin as [Hin Hne]. apply Hne.
  destruct Hc as (_ & _ & Hnd & _).
  apply (names_unique (heap q) (assets q) r' r n); try assumption.
  eapply list_elem_of_lookup_2; eauto.
Qed.

Lemma getDescriptor_removed_other q n i m :
  consistent q ->
  indexOf (heap q) (assets q) n = Some i ->
  m <> n ->
  getDescriptor (removed q n i) m = getDescriptor q m.
Proof.
  intros Hc Hi Hm. destruct (indexOf_Some_lookup _ _ _ _ Hi) as (r & Hr & Hn).
  apply getDescriptor_ext; [exact Hc | apply consistent_removed; assumption|].
  intros x. rewrite (removed_assets_elem q n i r x Hc Hr). simpl. split.
  - intros [[Hin _] Hx]. auto.
  - intros [Hin Hx]. repeat split; try assumption. intros ->. congruence.
Qed.

(** X5.  [remove] of a present name, on a consistent queue (every queue
    reached from the constructor is one, [reachable_consistent]), returns the
    value [get] returned for it; afterwards the name
    is in neither list, [getStatus] and [get] return [null] for it, [total]
    is one less, every other name has the descriptor, status and value it
    had, and the name can be added again. *)
Theorem remove_frees_the_name (q : AssetLoader) (n : string) (i : nat) :
  consistent q ->
  indexOf (heap q) (assets q) n = Some i ->
  let res := remove n q in
  let q' := state_of res in
  completion res = Normal (get_ q n) /\
  getDescriptor q' n = None /\ getStatus q' n = JSNull /\ get_ q' n = JSNull /\
  indexOf (heap q') (tasks q') n = None /\
  total q' = total q - 1 /\
  (forall m, m <> n ->
     getDescriptor q' m = getDescriptor q m /\
     getStatus q' m = getStatus q m /\ get_ q' m = get_ q m) /\
  (n <> "" -> forall l args ro lf,
     create l n args = Some ro -> ret_load ro = Some lf ->
     completion (addAs (Some l) n args q') = Normal (ret_value ro)).
Proof.
  intros Hc Hi. cbv zeta.
  destruct (indexOf_Some _ _ _ _ Hi) as (r & d & Hr & Hd & _).
  rewrite (remove_present q n i r d Hi Hr Hd).
  pose proof (getDescriptor_removed q n i Hc Hi) as Hg.
  pose proof (consistent_removed q n i Hc Hi) as Hc'.
  unfold completion, state_of. simpl fst. simpl snd.
  split; [unfold get_, getDescriptor; rewrite Hi, Hr, Hd; reflexivity|].
  split; [exact Hg|].
  split; [unfold getStatus; rewrite Hg; reflexivity|].
  split; [unfold get_; rewrite Hg; reflexivity|].
  split.
  { apply indexOf_None_names. intros Hin.
    apply getDescriptor_None in Hg. apply indexOf_None_names in Hg. apply Hg.
    destruct Hc' as (_ & Hs & _).
    eapply sublist_subseteq; [apply names_sublist; exact Hs|]. exact Hin. }
  split.
  { destruct Hc as (_ & _ & _ & Ht & _). unfold total. simpl.
    assert (i < length (assets q))%nat by (eapply lookup_lt_Some; eauto). lia. }
  split.
  { intros m Hm. pose proof (getDescriptor_removed_other q n i m Hc Hi Hm) as Hgm.
    split; [exact Hgm|]. unfold getStatus, get_. rewrite Hgm. split; reflexivity. }
  intros Hn l args ro lf Hcr Hl.
  rewrite (addAs_pushes _ l n args ro lf Hn (getDescriptor_None _ _ Hg) Hcr Hl).
  reflexivity.
Qed.

Lemma consistent_fresh_runs ops : consistent (run ops fresh).1.
Proof.
  apply (reachable_consistent ∅). apply run_reachable. apply reachable_init.
Qed.

Lemma remove_frees_the_name_witness :
  completion (remove "a.png" two_images_first_started) = Normal Image /\
  getStatus (state_of (remove "a.png" two_images_first_started)) "a.png" = JSNull /\
  getStatus (state_of (remove "a.png" two_images_first_started)) "b.gif" = JSStr "QUEUED".
Proof.
  destruct (remove_frees_the_name two_images_first_started "a.png" 0%nat)
    as (Hv & _ & Hs & _ & _ & _ & Ho & _).
  - apply (consistent_fresh_runs [Add "a.png" []; Add "b.gif" []; Update]).
  - reflexivity.
  - split; [exact Hv|]. split; [exact Hs|].
    destruct (Ho "b.gif") as (_ & Hb & _); [discriminate|]. rewrite Hb. reflexivity.
Defined.

(** ** Invalidating *)

(** X6.  [invalidate] on a consistent queue returns normally and dispatches
    nothing; afterwards the pending list is the asset list, [remaining] and
    [total] are the number of assets, every present name is [QUEUED] and not
    loaded, and every name has the descriptor and the value it had. *)
Theorem invalidate_requeues_every_asset (q : AssetLoader) :
  consistent q ->
  let res := invalidate q in
  let q' := state_of res in
  completion res = Normal tt /\ log_of res = [] /\
  assets q' = assets q /\ tasks q' = assets q /\
  remaining q' = Z.of_nat (length (assets q)) /\ total q' = Z.of_nat (length (assets q)) /\
  (forall n, getDescriptor q' n = getDescriptor q n /\ get_ q' n = get_ q n) /\
  (forall n r, getDescriptor q n = Some r ->
     getStatus q' n = JSStr "QUEUED" /\ isLoaded q' n = false).
Proof.
  intros Hc. cbv zeta. rewrite (invalidate_closed q) by apply Hc.
  unfold completion, state_of, log_of. simpl fst. simpl snd.
  assert (Hg : forall n, getDescriptor (invalidated q) n = getDescriptor q n).
  { intros n. unfold getDescriptor. simpl.
    change (reset_status (heap q) (assets q))
      with (heap (set_heap (reset_status (heap q) (assets q)) q)).
    rewrite (indexOf_kept q _ (assets q) n (fields_kept_reset q)). reflexivity. }
  repeat split; try reflexivity.
  - apply Hg.
  - unfold get_. rewrite Hg. destruct (getDescriptor q n) as [r|] eqn:Hr; [|reflexivity].
    simpl. apply getDescriptor_Some in Hr as [Hin _].
    rewrite (reset_status_lookup_in _ _ _ Hin). destruct (heap q !! r); reflexivity.
  - unfold getStatus. rewrite Hg, H. simpl.
    pose proof (getDescriptor_valid q n r ltac:(apply Hc) H) as Hlt.
    apply getDescriptor_Some in H as [Hin _].
    rewrite (reset_status_lookup_in _ _ _ Hin).
    destruct (lookup_lt_is_Some_2 _ _ Hlt) as [d ->]. reflexivity.
  - unfold isLoaded, getStatus. rewrite Hg, H. simpl.
    pose proof (getDescriptor_valid q n r ltac:(apply Hc) H) as Hlt.
    apply getDescriptor_Some in H as [Hin _].
    rewrite (reset_status_lookup_in _ _ _ Hin).
    destruct (lookup_lt_is_Some_2 _ _ Hlt) as [d ->]. reflexivity.
Qed.

Lemma invalidate_requeues_every_asset_witness :
  let q := (run [Add "a.png" []; Update; Complete (Bind "a.png" true) []] fresh).1 in
  getStatus q "a.png" = JSStr "LOAD_SUCCESS" /\
  getStatus (state_of (invalidate q)) "a.png" = JSStr "QUEUED" /\
  remaining (state_of (invalidate q)) = 1.
Proof.
  cbv zeta. split; [reflexivity|].
  destruct (invalidate_requeues_every_asset
              (run [Add "a.png" []; Update; Complete (Bind "a.png" true) []] fresh).1)
    as (_ & _ & _ & _ & Hr & _ & _ & Hs).
  - apply consistent_fresh_runs.
  - split; [|exact Hr]. destruct (Hs "a.png" 0%nat) as [H _]; [reflexivity | exact H].
Defined.

(** ** Clearing *)

(** X7.  After [removeAll] no name is present, both counters are zero and
    the loading flag is [false]; the finished event is dispatched exactly when
    the flag was [true] before; a later [update] returns [true] and does
    nothing, and a completion callback that arrives later is ignored. *)
Theorem removeAll_empties_the_queue (q : AssetLoader) :
  let res := removeAll q in
  let q' := state_of res in
  completion res = Normal tt /\
  log_of res = (if truthy_loading q then [loadFinished 0 0] else []) /\
  (forall n, getDescriptor q' n = None /\ getStatus q' n = JSNull) /\
  remaining q' = 0 /\ total q' = 0 /\ loading q' = Some false /\
  update q' = (Normal true, q', []) /\
  (forall c args, invoke c args q' = (Normal tt, q', [])).
Proof.
  cbv zeta. rewrite removeAll_closed.
  unfold completion, state_of, log_of. simpl fst. simpl snd.
  repeat split.
Qed.

(** ** Operations that keep the asset list *)

Lemma same_assets_refl q : same_assets q q.
Proof. split; [apply fields_kept_refl | reflexivity]. Qed.

Lemma same_assets_trans q1 q2 q3 : same_assets q1 q2 -> same_assets q2 q3 -> same_assets q1 q3.
Proof.
  intros [H1 Ha1] [H2 Ha2]. split; [eapply fields_kept_trans; eauto | congruence].
Qed.

Ltac same_assets_leaf :=
  first
    [ solve [auto with methods]
    | apply preserves_assign_status; [apply same_assets_refl|];
      intros ? ? ? Hd; split; [apply fields_kept_set_status; exact Hd | reflexivity]
    | apply preserves_modify; intros ?; split;
      [apply fields_kept_same_heap; reflexivity | reflexivity] ].

Ltac same_assets_method :=
  pose proof same_assets_refl; pose proof same_assets_trans;
  split_method; same_assets_leaf.

Lemma __loadCallback_same_assets n s : preserves same_assets (__loadCallback n s).
Proof. unfold __loadCallback. same_assets_method. Qed.
#[local] Hint Resolve __loadCallback_same_assets : methods.

Lemma invoke_all_same_assets calls : preserves same_assets (invoke_all calls).
Proof.
  induction calls as [|[c args] calls IH]; cbn [invoke_all].
  - apply preserves_ret. apply same_assets_refl.
  - apply preserves_bind; [apply same_assets_trans | | intros _; exact IH].
    exact (__loadCallback_same_assets (bound_name c) (JSBool (bound_success c))).
Qed.
#[local] Hint Resolve invoke_all_same_assets : methods.

Lemma update_same_assets : preserves same_assets update.
Proof. unfold update, call_load. same_assets_method. Qed.
#[local] Hint Resolve update_same_assets : methods.

Lemma load_loop_same_assets fuel : preserves same_assets (load_loop fuel).
Proof. induction fuel as [|k IH]; cbn [load_loop]; same_assets_method. Qed.
#[local] Hint Resolve load_loop_same_assets : methods.

Lemma load_same_assets : preserves same_assets load.
Proof. unfold load. same_assets_method. Qed.

Lemma invalidate_loop_same_assets n i : preserves same_assets (invalidate_loop n i).
Proof. revert i. induction n as [|k IH]; intros i; cbn [invalidate_loop]; same_assets_method. Qed.
#[local] Hint Resolve invalidate_loop_same_assets : methods.

Lemma invalidate_same_assets : preserves same_assets invalidate.
Proof. unfold invalidate. same_assets_method. Qed.

Lemma exec_same_assets op q : keeps_assets op = true -> same_assets q (state_of (exec op q)).
Proof.
  destruct op; try discriminate; intros _; cbn [exec]; rewrite ?state_of_discard.
  - apply update_same_assets.
  - apply load_same_assets.
  - apply invalidate_same_assets.
  - unfold registerLoader, state_of.
    destruct loader as [f|]; [destruct (registerLoader_ (loaders q) (Some f) _ _)|];
      (split; [apply fields_kept_same_heap; reflexivity | reflexivity]).
  - exact (__loadCallback_same_assets (bound_name c) (JSBool (bound_success c)) q).
Qed.

Lemma value_kept q q' r :
  fields_kept q q' -> (value <$> heap q' !! r) = (value <$> heap q !! r).
Proof.
  intros [Hlen Hk]. destruct (heap q !! r) as [d|] eqn:Hd.
  - destruct (Hk r d Hd) as (d' & -> & _ & _ & Hv). simpl. congruence.
  - apply lookup_ge_None in Hd. rewrite <- Hlen in Hd.
    apply lookup_ge_None in Hd. rewrite Hd. reflexivity.
Qed.

(** X8.  [update], [load], [invalidate], [registerLoader] and a completion
    callback leave the asset list as it is, and every name keeps its
    descriptor and the value [get] returns for it. *)
Theorem values_outlive_loading (op : Op) (q : AssetLoader) :
  keeps_assets op = true ->
  let q' := state_of (exec op q) in
  assets q' = assets q /\
  (forall n, getDescriptor q' n = getDescriptor q n /\ get_ q' n = get_ q n).
Proof.
  intros Hop. cbv zeta. destruct (exec_same_assets op q Hop) as [Hk Ha].
  split; [exact Ha|]. intros n.
  assert (Hg : getDescriptor (state_of (exec op q)) n = getDescriptor q n).
  { unfold getDescriptor. rewrite Ha, (indexOf_kept q _ (assets q) n Hk). reflexivity. }
  split; [exact Hg|]. unfold get_. rewrite Hg.
  destruct (getDescriptor q n) as [r|]; [|reflexivity].
  pose proof (value_kept q _ r Hk) as Hv.
  destruct (heap (state_of (exec op q)) !! r), (heap q !! r); simpl in Hv; congruence.
Qed.

Lemma values_outlive_loading_witness :
  get_ (state_of (exec (Complete (Bind "a.png" false) []) two_images_first_started)) "a.png"
    = Image.
Proof.
  destruct (values_outlive_loading (Complete (Bind "a.png" false) []) two_images_first_started)
    as [_ H]; [reflexivity|].
  destruct (H "a.png") as [_ Hv]. rewrite Hv. reflexivity.
Defined.

(** X9.  After a completion callback for a present name, [isLoaded] is the
    flag the callback was bound with: [true] after the success callback,
    [false] after the failure callback.  For a name that is not present
    [isLoaded] is [false]. *)
Theorem isLoaded_is_the_bound_outcome (q : AssetLoader) (c : Callback) (args : list JSValue) :
  (forall i, indexOf (heap q) (assets q) (bound_name c) = Some i ->
     isLoaded (state_of (invoke c args q)) (bound_name c) = bound_success c) /\
  (forall n, indexOf (heap q) (assets q) n = None -> isLoaded q n = false).
Proof.
  split.
  - intros i Hi. unfold isLoaded. rewrite invoke_eq, (getStatus_completed q _ _ i Hi).
    destruct (bound_success c); reflexivity.
  - intros n Hn. unfold isLoaded, getStatus, getDescriptor. rewrite Hn. reflexivity.
Qed.

Lemma isLoaded_is_the_bound_outcome_witness :
  isLoaded (state_of (invoke (Bind "a.png" true) [] two_images_first_started)) "a.png" = true /\
  isLoaded two_images_first_started "a.png" = false.
Proof.
  destruct (isLoaded_is_the_bound_outcome two_images_first_started (Bind "a.png" true) [])
    as [H _].
  split; [apply (H 0%nat); reflexivity | reflexivity].
Defined.

(** ** [load] starts every pending task *)

Lemma call_of_kept q q' r : fields_kept q q' -> call_of (heap q') r = call_of (heap q) r.
Proof.
  intros [Hlen Hk]. unfold call_of. destruct (heap q !! r) as [d|] eqn:Hd.
  - destruct (Hk r d Hd) as (d' & -> & Hn & Hf & _). simpl. congruence.
  - apply lookup_ge_None in Hd. rewrite <- Hlen in Hd.
    apply lookup_ge_None in Hd. rewrite Hd. reflexivity.
Qed.

Lemma omap_call_of_kept q q' (l : list nat) :
  fields_kept q q' -> omap (call_of (heap q')) l = omap (call_of (heap q)) l.
Proof.
  intros Hk. induction l as [|r l IH]; [reflexivity|].
  change (omap (call_of (heap q')) (r :: l))
    with (match call_of (heap q') r with
          | Some e => e :: omap (call_of (heap q')) l
          | None => omap (call_of (heap q')) l
          end).
  rewrite IH, (call_of_kept q q' r Hk). reflexivity.
Qed.

Lemma update_loadCall q r rest d :
  tasks q = r :: rest ->
  heap q !! r = Some d ->
  List.filter is_loadCall (log_of (update q))
    = [loadCall (loadFunc d) (Bind (name d) true) (Bind (name d) false)].
Proof.
  intros Ht Hd. rewrite (update_nonempty q r rest d Ht Hd).
  set (calls := loadFunc d (Bind (name d) true) (Bind (name d) false)).
  set (q1 := set_tasks rest (if started_now q then set_loading true q else q)).
  pose proof (invoke_all_logs calls q1) as Hlog.
  unfold log_of in *. simpl. rewrite List.filter_app. cbn [List.filter is_loadCall].
  rewrite (filter_completion_events is_loadCall (invoke_all calls q1).2)
    by (assumption || (intros e [He _]; exact He)).
  destruct (started_now q); reflexivity.
Qed.

Lemma load_loop_starts_all fuel q :
  consistent q ->
  (length (tasks q) <= fuel)%nat ->
  completion (load_loop fuel q) = Normal tt /\
  tasks (state_of (load_loop fuel q)) = [] /\
  List.filter is_loadCall (log_of (load_loop fuel q)) = omap (call_of (heap q)) (tasks q) /\
  List.filter is_loadStarted (log_of (load_loop fuel q))
    = (if (started_now q && negb (Nat.eqb (length (tasks q)) 0))%bool
       then [loadStarted 0 (total q)] else []).
Proof.
  revert q. induction fuel as [|k IH]; intros q Hc Hlen.
  - destruct (tasks q) as [|r rest] eqn:Ht; [|simpl in Hlen; lia].
    unfold completion, state_of, log_of. simpl. rewrite Ht. simpl.
    rewrite andb_false_r. repeat split.
  - rewrite load_loop_S. destruct (tasks q) as [|r rest] eqn:Ht.
    { unfold completion, state_of, log_of. simpl. rewrite Ht, andb_false_r. repeat split. }
    destruct (consistent_head_valid q r rest Hc Ht) as [d Hd].
    pose proof (consistent_update q Hc) as Hc1.
    pose proof (update_same_assets q) as [Hk Ha].
    destruct (update_tasks q r rest d Ht Hd) as [Htasks Hret].
    pose proof (update_loadCall q r rest d Ht Hd) as Hcall.
    pose proof (update_started q r rest d Ht Hd) as Hstart.
    rewrite M_bind_unfold.
    destruct (update q) as [[rc q1] l1]. unfold completion, state_of, log_of in *.
    simpl in Hret, Htasks, Hcall, Hstart, Hc1, Hk, Ha. subst rc.
    assert (Hlen1 : (length (tasks q1) <= k)%nat) by (rewrite Htasks; simpl in Hlen; lia).
    destruct (IH q1 Hc1 Hlen1) as (Hn & Hdone & Hcalls & Hstarted).
    assert (Hnot : started_now q1 = false).
    { unfold started_now. rewrite Htasks, Ha. apply Nat.eqb_neq.
      destruct Hc as (_ & Hs & _). apply sublist_length in Hs. rewrite Ht in Hs.
      simpl in Hs. lia. }
    rewrite Hnot in Hstarted. simpl in Hstarted.
    destruct (load_loop k q1) as [[rc2 q2] l2]. simpl in *.
    rewrite !List.filter_app, Hcall, Hcalls, Hstart, Hstarted, Htasks.
    rewrite (omap_call_of_kept q q1 rest Hk).
    split; [exact Hn|]. split; [exact Hdone|]. split.
    + change (omap (call_of (heap q)) (r :: rest))
        with (match call_of (heap q) r with
              | Some e => e :: omap (call_of (heap q)) rest
              | None => omap (call_of (heap q)) rest
              end).
      unfold call_of at 2. rewrite Hd. reflexivity.
    + rewrite andb_true_r, app_nil_r. reflexivity.
Qed.

Lemma omap_call_of_length q (l : list nat) :
  Forall (fun r => (r < length (heap q))%nat) l ->
  length (omap (call_of (heap q)) l) = length l.
Proof.
  induction 1 as [|r l Hr _ IH]; [reflexivity|].
  change (omap (call_of (heap q)) (r :: l))
    with (match call_of (heap q) r with
          | Some e => e :: omap (call_of (heap q)) l
          | None => omap (call_of (heap q)) l
          end).
  unfold call_of at 1. destruct (lookup_lt_is_Some_2 _ _ Hr) as [d ->]. simpl. congruence.
Qed.

(** X10.  [load] on a consistent queue returns normally and leaves the
    pending list empty.  It calls the [load] function of every pending
    descriptor once, in the order of the pending list, each with callbacks
    bound to the descriptor's name; and it dispatches the started event once
    if the pending list was non-empty and as long as the asset list, and not
    at all otherwise. *)
Theorem load_starts_every_pending_task (q : AssetLoader) :
  consistent q ->
  completion (load q) = Normal tt /\
  tasks (state_of (load q)) = [] /\
  List.filter is_loadCall (log_of (load q)) = omap (call_of (heap q)) (tasks q) /\
  length (List.filter is_loadCall (log_of (load q))) = length (tasks q) /\
  List.filter is_loadStarted (log_of (load q))
    = (if (started_now q && negb (Nat.eqb (length (tasks q)) 0))%bool
       then [loadStarted 0 (total q)] else []).
Proof.
  intros Hc. rewrite load_unfold.
  destruct (load_loop_starts_all (length (tasks q)) q Hc (le_n _)) as (Hn & Hd & Hcalls & Hs).
  repeat split; try assumption.
  rewrite Hcalls. apply omap_call_of_length.
  destruct Hc as (Hv & Hsub & _). unfold valid_refs in Hv. rewrite Forall_forall in *.
  intros r Hr. apply Hv. eapply sublist_subseteq; eauto.
Qed.

Lemma load_starts_every_pending_task_witness :
  let q := (run [Add "a.png" []; Add "b.gif" []] fresh).1 in
  log_of (load q)
    = [loadStarted 0 2;
       loadCall ImageLoader_load (Bind "a.png" true) (Bind "a.png" false);
       loadCall ImageLoader_load (Bind "b.gif" true) (Bind "b.gif" false)] /\
  tasks (state_of (load q)) = [].
Proof.
  cbv zeta. split; [reflexivity|].
  destruct (load_starts_every_pending_task (run [Add "a.png" []; Add "b.gif" []] fresh).1)
    as (_ & H & _); [apply consistent_fresh_runs | exact H].
Defined.

(** ** The loader registry *)

Lemma media_keys_nil mt : media_keys mt [] = [].
Proof. destruct mt as [m|]; [simpl; destruct (String.eqb m "")|]; reflexivity. Qed.

Lemma media_keys_cons mt e exts :
  media_keys mt (e :: exts) = media_keys mt [e] ++ media_keys mt exts.
Proof. destruct mt as [m|]; [simpl; destruct (String.eqb m "")|]; reflexivity. Qed.

Lemma own_extensions_cons e exts :
  own_extensions (e :: exts) = own_extensions [e] ++ own_extensions exts.
Proof. unfold own_extensions. simpl. destruct (String.eqb e "__proto__"); reflexivity. Qed.

Lemma indexOf_sep_found c s t : JSString.indexOf c (s +:+ String c t) <> None.
Proof.
  induction s as [|a s IH].
  - change ("" +:+ String c t) with (String c t). simpl. rewrite Ascii.eqb_refl. discriminate.
  - change (String a s +:+ String c t) with (String a (s +:+ String c t)). simpl.
    destruct (Ascii.eqb a c); [discriminate|].
    destruct (JSString.indexOf c (s +:+ String c t)); [discriminate | contradiction].
Qed.

Lemma media_key_not_proto m e : m +:+ "/" +:+ e <> "__proto__".
Proof.
  intros H. apply (indexOf_sep_found "/" m e).
  change (String "/" e) with ("/" +:+ e). rewrite H. reflexivity.
Qed.




Lemma assign_property_lookup (obj : gmap string Loader) key v k :
  assign_property obj key v !! k =
    if decide (k = key /\ key <> "__proto__") then Some v else obj !! k.
Proof.
  unfold assign_property. destruct (String.eqb_spec key "__proto__") as [->|Hne].
  - rewrite decide_False; [reflexivity|]. intros [_ H]. apply H. reflexivity.
  - destruct (decide (k = key)) as [->|Hk].
    + rewrite lookup_insert_eq. rewrite decide_True by auto. reflexivity.
    + rewrite lookup_insert_ne by congruence. rewrite decide_False; [reflexivity|].
      intros [? _]. contradiction.
Qed.

Lemma elem_of_own_extension k e : k ∈ own_extensions [e] <-> k = e /\ e <> "__proto__".
Proof.
  unfold own_extensions. simpl. destruct (String.eqb_spec e "__proto__") as [->|Hne]; simpl.
  - rewrite elem_of_nil. split; [tauto|]. intros [_ H]. apply H. reflexivity.
  - rewrite list_elem_of_singleton. tauto.
Qed.

Lemma register_loop_lookup (loaders : gmap string Loader) f exts mt k :
  register_loop loaders f exts mt !! k =
    if decide (k ∈ own_extensions exts ++ media_keys mt exts) then Some f else loaders !! k.
Proof.
  revert loaders. induction exts as [|e exts IH]; intros loaders.
  - rewrite media_keys_nil. simpl. destruct (decide (k ∈ [])) as [H|_]; [inversion H|reflexivity].
  - cbn [register_loop]. rewrite IH.
    set (step := match mt with
                 | Some m => if String.eqb m "" then assign_property loaders e f
                             else assign_property (assign_property loaders e f)
                                    (m +:+ "/" +:+ e) f
                 | None => assign_property loaders e f
                 end).
    assert (Hstep : step !! k =
              if decide (k ∈ own_extensions [e] ++ media_keys mt [e])
              then Some f else loaders !! k).
    { unfold step, media_keys. destruct mt as [m|]; [destruct (String.eqb m "")|].
      - rewrite app_nil_r, assign_property_lookup.
        destruct (decide (k = e /\ e <> "__proto__")) as [H|H].
        + rewrite decide_True; [reflexivity|]. apply elem_of_own_extension. exact H.
        + rewrite decide_False; [reflexivity|]. rewrite elem_of_own_extension. exact H.
      - rewrite !assign_property_lookup. rewrite fmap_cons, fmap_nil.
        destruct (decide (k = m +:+ "/" +:+ e /\ m +:+ "/" +:+ e <> "__proto__")) as [[-> _]|H1].
        + rewrite decide_True; [reflexivity|]. rewrite elem_of_app. right. left.
        + destruct (decide (k = e /\ e <> "__proto__")) as [H|H].
          * rewrite decide_True; [reflexivity|]. rewrite elem_of_app. left.
            apply elem_of_own_extension. exact H.
          * rewrite decide_False; [reflexivity|].
            rewrite elem_of_app, elem_of_own_extension, list_elem_of_singleton.
            intros [?|Hk]; [contradiction|]. apply H1. split; [exact Hk|].
            apply media_key_not_proto.
      - rewrite app_nil_r, assign_property_lookup.
        destruct (decide (k = e /\ e <> "__proto__")) as [H|H].
        + rewrite decide_True; [reflexivity|]. apply elem_of_own_extension. exact H.
        + rewrite decide_False; [reflexivity|]. rewrite elem_of_own_extension. exact H. }
    rewrite Hstep, (media_keys_cons mt e exts), (own_extensions_cons e exts).
    clearbody step. clear IH Hstep.
    destruct (decide (k ∈ own_extensions exts ++ media_keys mt exts)) as [Hin|Hout].
    + rewrite decide_True; [reflexivity|].
      rewrite elem_of_app in Hin. rewrite !elem_of_app. tauto.
    + destruct (decide (k ∈ own_extensions [e] ++ media_keys mt [e])) as [Hk|Hk].
      * rewrite decide_True; [reflexivity|].
        rewrite elem_of_app in Hk. rewrite !elem_of_app. tauto.
      * rewrite decide_False; [reflexivity|].
        rewrite elem_of_app in Hout, Hk. rewrite !elem_of_app. tauto.
Qed.



(** A loader whose only extension is ["__proto__"] registers without an
    error and leaves no entry: [add] finds no loader for a name with that
    extension. *)
Example proto_extension_installs_no_key :
  let f := mkLoader (create ImageLoader) ["__proto__"] None in
  let q := state_of (registerLoader (Some f) fresh) in
  completion (registerLoader (Some f) fresh) = Normal tt /\
  loaders q !! "__proto__" = None /\
  add "x.__proto__" [] q = (Throw (NoLoaderFound "__proto__" "x.__proto__"), q, []).
Proof. cbv zeta. repeat split. Qed.

(** X12.  A queue made by the constructor has no descriptor, zero counters
    and an unset loading flag.  Its registry maps the four image extensions
    and the four [image/...] keys to the bundled image loader, also where the
    common loaders had an entry, and every other key to what the common
    loaders map it to. *)
Theorem constructor_registers_the_image_loader (common : gmap string Loader) :
  let q := initialize common in
  heap q = [] /\ assets q = [] /\ tasks q = [] /\
  remaining q = 0 /\ total q = 0 /\ loading q = None /\
  (forall k, k ∈ ["png"; "gif"; "jpg"; "jpeg";
                  "image/png"; "image/gif"; "image/jpg"; "image/jpeg"] ->
     loaders q !! k = Some ImageLoader) /\
  (forall k, k ∉ ["png"; "gif"; "jpg"; "jpeg";
                  "image/png"; "image/gif"; "image/jpg"; "image/jpeg"] ->
     loaders q !! k = common !! k).
Proof.
  cbv zeta. repeat split.
  - intros k Hk.
    change (register_loop common ImageLoader (extensions ImageLoader) (mediaType ImageLoader)
              !! k = Some ImageLoader).
    rewrite register_loop_lookup. case_decide; [reflexivity | contradiction].
  - intros k Hk.
    change (register_loop common ImageLoader (extensions ImageLoader) (mediaType ImageLoader)
              !! k = common !! k).
    rewrite register_loop_lookup. case_decide; [contradiction | reflexivity].
Qed.

Lemma constructor_registers_the_image_loader_witness :
  loaders (initialize {["png" := DemoImageLoader; "json" := DemoImageLoader]}) !! "png"
    = Some ImageLoader /\
  loaders (initialize {["png" := DemoImageLoader; "json" := DemoImageLoader]}) !! "json"
    = Some DemoImageLoader.
Proof.
  destruct (constructor_registers_the_image_loader
              {["png" := DemoImageLoader; "json" := DemoImageLoader]})
    as (_ & _ & _ & _ & _ & _ & Hin & Hout).
  split.
  - apply Hin. refine (bool_decide_unpack _ _). vm_compute. exact I.
  - rewrite Hout; [reflexivity|]. refine (bool_decide_unpack _ _). vm_compute. exact I.
Defined.

(** ** The string primitives *)

Lemma append_cons a s t : String a s +:+ t = String a (s +:+ t).
Proof. reflexivity. Qed.

Lemma append_nil t : "" +:+ t = t.
Proof. reflexivity. Qed.

Lemma length_append s t : String.length (s +:+ t) = (String.length s + String.length t)%nat.
Proof. induction s as [|a s IH]; [reflexivity|]. rewrite append_cons. simpl. rewrite IH. reflexivity. Qed.

Lemma slice_to_append s t : JSString.slice_to (String.length s) (s +:+ t) = s.
Proof. induction s as [|a s IH]; [reflexivity|]. rewrite append_cons. simpl. rewrite IH. reflexivity. Qed.

Lemma slice_from_append s t k :
  JSString.slice_from (String.length s + k) (s +:+ t) = JSString.slice_from k t.
Proof. induction s as [|a s IH]; [reflexivity|]. rewrite append_cons. simpl. exact IH. Qed.

Lemma indexOf_append c s t :
  JSString.indexOf c s = None ->
  JSString.indexOf c (s +:+ t)
    = option_map (fun i => (String.length s + i)%nat) (JSString.indexOf c t).
Proof.
  induction s as [|a s IH]; intros H.
  - rewrite append_nil. destruct (JSString.indexOf c t); reflexivity.
  - rewrite append_cons. simpl in *. destruct (Ascii.eqb a c); [discriminate|].
    destruct (JSString.indexOf c s); [discriminate|]. rewrite IH by reflexivity.
    destruct (JSString.indexOf c t); reflexivity.
Qed.

Lemma lastIndexOf_None c s :
  JSString.indexOf c s = None -> JSString.lastIndexOf c s = None.
Proof.
  induction s as [|a s IH]; intros H; [reflexivity|]. simpl in *.
  destruct (Ascii.eqb a c); [discriminate|].
  destruct (JSString.indexOf c s); [discriminate|]. rewrite IH by reflexivity. reflexivity.
Qed.

Lemma lastIndexOf_append c s t :
  JSString.lastIndexOf c (s +:+ t) =
    match JSString.lastIndexOf c t with
    | Some i => Some (String.length s + i)%nat
    | None => JSString.lastIndexOf c s
    end.
Proof.
  induction s as [|a s IH]; [rewrite append_nil; destruct (JSString.lastIndexOf c t); reflexivity|].
  rewrite append_cons. simpl. rewrite IH.
  destruct (JSString.lastIndexOf c t); reflexivity.
Qed.

Lemma split_no_sep c s : JSString.indexOf c s = None -> JSString.split c s = [s].
Proof.
  induction s as [|a s IH]; intros H; [reflexivity|]. simpl in *.
  destruct (Ascii.eqb a c); [discriminate|].
  destruct (JSString.indexOf c s); [discriminate|]. rewrite IH by reflexivity. reflexivity.
Qed.

Lemma split_not_nil c s : JSString.split c s <> [].
Proof.
  induction s as [|a s IH]; [discriminate|]. simpl.
  destruct (Ascii.eqb a c); [discriminate|]. destruct (JSString.split c s); discriminate.
Qed.

Lemma split_append_sep c s t :
  JSString.indexOf c s = None ->
  JSString.split c (s +:+ String c t) = s :: JSString.split c t.
Proof.
  induction s as [|a s IH]; intros H.
  - rewrite append_nil. simpl. rewrite Ascii.eqb_refl. reflexivity.
  - rewrite append_cons. simpl in *. destruct (Ascii.eqb a c); [discriminate|].
    destruct (JSString.indexOf c s); [discriminate|]. rewrite IH by reflexivity. reflexivity.
Qed.

Lemma split_cons_sep c s t :
  JSString.split c (s +:+ String c t) =
    match JSString.split c s with
    | [] => JSString.split c t
    | _ :: _ => JSString.split c s ++ JSString.split c t
    end.
Proof.
  induction s as [|a s IH].
  - rewrite append_nil. simpl. rewrite Ascii.eqb_refl. reflexivity.
  - rewrite append_cons. simpl. destruct (Ascii.eqb a c).
    + rewrite IH. destruct (JSString.split c s) eqn:E; [|reflexivity].
      exfalso. exact (split_not_nil c s E).
    + rewrite IH. destruct (JSString.split c s) eqn:E; [exfalso; exact (split_not_nil c s E)|].
      reflexivity.
Qed.

Lemma last_app_cons {A : Type} (l : list A) (y : A) (k : list A) (d : A) :
  List.last (l ++ y :: k) d = List.last (y :: k) d.
Proof.
  induction l as [|x l IH]; [reflexivity|].
  rewrite <- app_comm_cons. cbn [List.last]. destruct (l ++ y :: k) eqn:E; [|exact IH].
  destruct l; discriminate.
Qed.

Lemma last_split_append_sep c s t :
  List.last (JSString.split c (s +:+ String c t)) EmptyString
    = List.last (JSString.split c t) EmptyString.
Proof.
  rewrite split_cons_sep. destruct (JSString.split c s) as [|x l] eqn:E; [reflexivity|].
  rewrite <- E. destruct (JSString.split c t) as [|y k] eqn:Et;
    [exfalso; exact (split_not_nil c t Et)|].
  apply last_app_cons.
Qed.

Lemma lower_char_idem a : JSString.lower_char (JSString.lower_char a) = JSString.lower_char a.
Proof.
  destruct a as [[|] [|] [|] [|] [|] [|] [|] [|]]; reflexivity.
Qed.

Lemma toLowerCase_idem s : JSString.toLowerCase (JSString.toLowerCase s) = JSString.toLowerCase s.
Proof. induction s as [|a s IH]; [reflexivity|]. simpl. rewrite lower_char_idem, IH. reflexivity. Qed.

Lemma toLowerCase_append s t :
  JSString.toLowerCase (s +:+ t) = JSString.toLowerCase s +:+ JSString.toLowerCase t.
Proof.
  induction s as [|a s IH]; [reflexivity|]. rewrite append_cons. simpl.
  rewrite IH. reflexivity.
Qed.

Lemma append_nil_r s : s +:+ "" = s.
Proof. induction s as [|a s IH]; [reflexivity|]. rewrite append_cons, IH. reflexivity. Qed.

Lemma append_assoc s t u : (s +:+ t) +:+ u = s +:+ t +:+ u.
Proof. induction s as [|a s IH]; [reflexivity|]. rewrite !append_cons, IH. reflexivity. Qed.

Lemma length_pos s : s <> "" -> (0 < String.length s)%nat.
Proof. destruct s; [contradiction | simpl; lia]. Qed.

(** ** File extensions *)

(** X13.  The extension of [base.ext], for a non-empty [base] and a
    non-empty [ext] without a dot, is [ext] in lower case.  A name without a
    dot, a name whose only dot is its first character and a name that ends in
    a dot have no extension. *)
Theorem extension_is_text_after_last_dot :
  (forall base ext, base <> "" -> ext <> "" -> JSString.indexOf "." ext = None ->
     __extension (base +:+ "." +:+ ext) = JSString.toLowerCase ext) /\
  (forall s, JSString.indexOf "." s = None -> __extension s = "") /\
  (forall ext, JSString.indexOf "." ext = None -> __extension ("." +:+ ext) = "") /\
  (forall s, __extension (s +:+ ".") = "").
Proof.
  repeat split.
  - intros base ext Hb He Hd. unfold __extension, JSString.length.
    change ("." +:+ ext) with (String "." ext).
    rewrite lastIndexOf_append. cbn [JSString.lastIndexOf].
    rewrite (lastIndexOf_None _ _ Hd). cbn [Ascii.eqb Bool.eqb].
    rewrite length_append. cbn [String.length].
    pose proof (length_pos base Hb). pose proof (length_pos ext He).
    destruct (Nat.eqb_spec (String.length base + 0) 0); [lia|].
    destruct (Nat.eqb_spec (S (String.length base + 0))
                (String.length base + S (String.length ext))); [lia|].
    cbn [orb]. rewrite Nat.add_0_r.
    replace (S (String.length base)) with (String.length base + 1)%nat by lia.
    rewrite slice_from_append. reflexivity.
  - intros s Hd. unfold __extension. rewrite (lastIndexOf_None _ _ Hd). reflexivity.
  - intros ext Hd. unfold __extension. change ("." +:+ ext) with (String "." ext).
    cbn [JSString.lastIndexOf]. rewrite (lastIndexOf_None _ _ Hd). reflexivity.
  - intros s. unfold __extension, JSString.length. rewrite lastIndexOf_append.
    cbn [JSString.lastIndexOf Ascii.eqb Bool.eqb]. rewrite length_append. cbn [String.length].
    rewrite Nat.add_0_r.
    destruct (Nat.eqb_spec (S (String.length s)) (String.length s + 1)); [|lia].
    rewrite orb_true_r. reflexivity.
Qed.

Lemma extension_is_text_after_last_dot_witness :
  __extension ("img/scene.v2" +:+ "." +:+ "PNG") = "png".
Proof.
  destruct extension_is_text_after_last_dot as [H _].
  rewrite H; [reflexivity | discriminate | discriminate | reflexivity].
Defined.

(** ** Data URIs *)

Lemma getDataType_data x :
  __getDataType ("data:" +:+ x) =
    match JSString.indexOf "," x with
    | None => None
    | Some sepIdx =>
        let info := hd EmptyString (JSString.split ";" (JSString.slice_to sepIdx x)) in
        if (String.eqb info "" || String.eqb (JSString.toLowerCase info) "text/plain")%bool
        then Some "txt"
        else Some (JSString.toLowerCase (List.last (JSString.split "/" info) EmptyString))
    end.
Proof. reflexivity. Qed.

(** X14.  For a data URI [data:<info><after>,<payload>], where [info] holds
    no comma and no semicolon and [after] is empty or starts with a semicolon
    and holds no comma, the key is ["txt"] when [info] is empty or is
    [text/plain] in any letter case, and otherwise the text after the last
    ['/'] of [info], in lower case; for [info] = [type/subtype] that is the
    subtype. *)
Theorem data_uri_key_is_the_subtype (info after payload : string) :
  JSString.indexOf "," info = None ->
  JSString.indexOf ";" info = None ->
  JSString.indexOf "," after = None ->
  after = "" \/ (exists enc, after = String ";" enc) ->
  __getDataType ("data:" +:+ info +:+ after +:+ "," +:+ payload) =
    Some (if (String.eqb info "" || String.eqb (JSString.toLowerCase info) "text/plain")%bool
          then "txt"
          else JSString.toLowerCase (List.last (JSString.split "/" info) EmptyString)) /\
  (forall ty sub, info = ty +:+ "/" +:+ sub -> JSString.indexOf "/" sub = None ->
     JSString.toLowerCase info <> "text/plain" ->
     __getDataType ("data:" +:+ info +:+ after +:+ "," +:+ payload)
       = Some (JSString.toLowerCase sub)).
Proof.
  intros Hci Hsi Hca Hafter.
  assert (Hmain :
    __getDataType ("data:" +:+ info +:+ after +:+ "," +:+ payload) =
    Some (if (String.eqb info "" || String.eqb (JSString.toLowerCase info) "text/plain")%bool
          then "txt"
          else JSString.toLowerCase (List.last (JSString.split "/" info) EmptyString))).
  { rewrite getDataType_data.
    rewrite (indexOf_append "," info _ Hci), (indexOf_append "," after _ Hca).
    change ("," +:+ payload) with (String "," payload). cbn [JSString.indexOf Ascii.eqb Bool.eqb].
    cbn [option_map]. rewrite Nat.add_0_r, <- length_append, <- append_assoc, slice_to_append.
    assert (Hhd : hd EmptyString (JSString.split ";" (info +:+ after)) = info).
    { destruct Hafter as [->|[enc ->]].
      - rewrite append_nil_r, (split_no_sep _ _ Hsi). reflexivity.
      - rewrite (split_append_sep _ _ _ Hsi). reflexivity. }
    cbv zeta. rewrite Hhd.
    destruct (String.eqb info "" || String.eqb (JSString.toLowerCase info) "text/plain")%bool;
      reflexivity. }
  split; [exact Hmain|].
  intros ty sub Hinfo Hsub Hplain. rewrite Hmain.
  destruct (String.eqb_spec info "") as [He|_].
  { exfalso. rewrite He in Hinfo. destruct ty; discriminate. }
  destruct (String.eqb_spec (JSString.toLowerCase info) "text/plain") as [Hp|_]; [contradiction|].
  cbn [orb]. rewrite Hinfo. change ("/" +:+ sub) with (String "/" sub).
  rewrite last_split_append_sep, (split_no_sep _ _ Hsub). reflexivity.
Qed.

Lemma data_uri_key_is_the_subtype_witness :
  __getDataType ("data:" +:+ "image/PNG" +:+ ";base64" +:+ "," +:+ "iVBORw0KGgo=") = Some "png".
Proof.
  destruct (data_uri_key_is_the_subtype "image/PNG" ";base64" "iVBORw0KGgo=") as [_ H];
    [reflexivity | reflexivity | reflexivity | right; exists "base64"; reflexivity |].
  apply (H "image" "PNG"); [reflexivity | reflexivity | discriminate].
Defined.

(** ** The keys [add] looks up *)

Lemma lower_char_slash a : Ascii.eqb (JSString.lower_char a) "/" = Ascii.eqb a "/".
Proof. destruct a as [[|] [|] [|] [|] [|] [|] [|] [|]]; reflexivity. Qed.

Lemma toLowerCase_no_slash s :
  JSString.indexOf "/" s = None -> JSString.indexOf "/" (JSString.toLowerCase s) = None.
Proof.
  induction s as [|a s IH]; intros H; [reflexivity|]. simpl in *.
  rewrite lower_char_slash. destruct (Ascii.eqb a "/"); [discriminate|].
  destruct (JSString.indexOf "/" s); [discriminate|]. rewrite IH by reflexivity. reflexivity.
Qed.

Lemma split_segments_no_sep c s :
  Forall (fun x => JSString.indexOf c x = None) (JSString.split c s).
Proof.
  induction s as [|a s IH]; [repeat constructor|]. simpl.
  destruct (Ascii.eqb a c) eqn:E; [constructor; [reflexivity | exact IH]|].
  destruct (JSString.split c s) as [|h t]; [repeat constructor; simpl; rewrite E; reflexivity|].
  inversion IH as [|? ? Hh Ht]; subst. constructor; [|exact Ht].
  simpl. rewrite E, Hh. reflexivity.
Qed.

Lemma last_split_no_sep c s :
  JSString.indexOf c (List.last (JSString.split c s) EmptyString) = None.
Proof.
  pose proof (split_segments_no_sep c s) as H.
  induction H as [|x l Hx _ IH]; [reflexivity|].
  destruct l; [exact Hx | exact IH].
Qed.

Lemma getDataType_cases n k :
  __getDataType n = Some k ->
  k = "txt" \/ exists info, k = JSString.toLowerCase (List.last (JSString.split "/" info) EmptyString).
Proof.
  unfold __getDataType.
  destruct (String.eqb _ "data:"); [|discriminate].
  destruct (JSString.indexOf "," _) as [sepIdx|]; [|discriminate].
  cbv zeta. destruct (_ || _)%bool; intros [= <-]; [left; reflexivity|].
  right. eexists. reflexivity.
Qed.

Lemma extension_cases n : __extension n = "" \/ exists x, __extension n = JSString.toLowerCase x.
Proof.
  unfold __extension. destruct (JSString.lastIndexOf "." n) as [idx|]; [|left; reflexivity].
  destruct (_ || _)%bool; [left; reflexivity|]. right. eexists. reflexivity.
Qed.

(** X15.  The key under which [add] looks a loader up is in lower case, so
    [add] never resolves a name to a key that has an upper-case letter; and a
    key taken from a data URI holds no ['/'], so the [mediaType/extension]
    entries of the registry are never the key of a data URI. *)
Theorem resolved_key_is_lower_case (n : string) :
  JSString.toLowerCase (add_ext n) = add_ext n /\
  (forall k, JSString.toLowerCase k <> k -> add_ext n <> k) /\
  (forall k, __getDataType n = Some k -> JSString.indexOf "/" k = None).
Proof.
  assert (Hlow : JSString.toLowerCase (add_ext n) = add_ext n).
  { unfold add_ext. destruct (__getDataType n) as [k|] eqn:Hg.
    - destruct (getDataType_cases n k Hg) as [->|[info ->]]; [reflexivity|].
      apply toLowerCase_idem.
    - destruct (extension_cases n) as [->|[x ->]]; [reflexivity|]. apply toLowerCase_idem. }
  split; [exact Hlow|]. split.
  - intros k Hk <-. apply Hk. exact Hlow.
  - intros k Hg. destruct (getDataType_cases n k Hg) as [->|[info ->]]; [reflexivity|].
    apply toLowerCase_no_slash. apply last_split_no_sep.
Qed.

Lemma resolved_key_is_lower_case_witness :
  add_ext "photo.JPEG" <> "JPEG" /\
  JSString.indexOf "/" "png" = None.
Proof.
  destruct (resolved_key_is_lower_case "photo.JPEG") as (_ & Hk & _).
  destruct (resolved_key_is_lower_case "data:image/png;base64,AAAA") as (_ & _ & Hs).
  split; [apply Hk; discriminate | apply Hs; reflexivity].
Defined.

(** ** Which operation dispatches what *)

Lemma logs_nothing {A : Type} (m : M A) q : logs no_event m -> log_of (m q) = [].
Proof.
  intros H. specialize (H q). destruct (log_of (m q)) as [|e l]; [reflexivity|].
  inversion H as [|? ? He _]. destruct He.
Qed.

Lemma invalidate_loop_silent n i : logs no_event (invalidate_loop n i).
Proof. revert i. induction n as [|k IH]; intros i; cbn [invalidate_loop]; split_method; apply IH. Qed.

Lemma invalidate_silent : logs no_event invalidate.
Proof. unfold invalidate. split_method. apply invalidate_loop_silent. Qed.

Lemma addAs_silent l n args q : log_of (addAs l n args q) = [].
Proof.
  destruct (addAs_cases q l n args) as [[e ->]|(f & ro & lf & _ & _ & _ & _ & _ & ->)];
    reflexivity.
Qed.

Lemma add_silent n args q : log_of (add n args q) = [].
Proof.
  destruct (add_cases q n args) as [[e ->]|(f & _ & _ & _ & ->)]; [reflexivity|].
  apply addAs_silent.
Qed.

Lemma addAll_silent array q : log_of (addAll array q) = [].
Proof.
  revert q. induction array as [|n rest IH]; intros q; [reflexivity|].
  cbn [addAll]. rewrite M_bind_unfold. pose proof (add_silent n [] q) as Ha.
  destruct (add n [] q) as [[[v|e] q1] l1]; unfold log_of in *; simpl in *; [|exact Ha].
  rewrite M_bind_unfold. specialize (IH q1).
  destruct (addAll rest q1) as [[[vs|e] q2] l2]; simpl in *; subst; reflexivity.
Qed.

(** X16.  [add], [addAs], [addAll], [invalidate] and [registerLoader]
    dispatch no event.  [remove] and [removeAll] dispatch nothing or the one
    finished event with zero counts.  A completion callback never dispatches
    the started event and never calls a [load] function. *)
Theorem events_by_operation (q : AssetLoader) :
  (forall n args, log_of (add n args q) = []) /\
  (forall l n args, log_of (addAs l n args q) = []) /\
  (forall array, log_of (addAll array q) = []) /\
  log_of (invalidate q) = [] /\
  (forall l, log_of (registerLoader l q) = []) /\
  (forall n, log_of (remove n q) = [] \/ log_of (remove n q) = [loadFinished 0 0]) /\
  (log_of (removeAll q) = [] \/ log_of (removeAll q) = [loadFinished 0 0]) /\
  (forall c args,
     List.filter is_loadStarted (log_of (invoke c args q)) = [] /\
     List.filter is_loadCall (log_of (invoke c args q)) = []).
Proof.
  split; [intros; apply add_silent|].
  split; [intros; apply addAs_silent|].
  split; [intros; apply addAll_silent|].
  split; [apply (logs_nothing invalidate q invalidate_silent)|].
  split.
  { intros l. unfold registerLoader, log_of.
    destruct l as [f|]; [destruct (registerLoader_ (loaders q) (Some f) _ _)|]; reflexivity. }
  split.
  { intros n. destruct (indexOf (heap q) (assets q) n) as [i|] eqn:Hi.
    - destruct (indexOf_Some _ _ _ _ Hi) as (r & d & Hr & Hd & _).
      rewrite (remove_present q n i r d Hi Hr Hd). unfold log_of, removed_log. simpl.
      destruct (_ && _)%bool; auto.
    - rewrite remove_absent by assumption. left. reflexivity. }
  split.
  { rewrite removeAll_closed. unfold log_of. simpl. destruct (truthy_loading q); auto. }
  intros c args. rewrite invoke_eq.
  pose proof (__loadCallback_logs (bound_name c) (JSBool (bound_success c)) q) as Hl.
  split; apply filter_completion_events; try assumption.
  - intros e [_ He]. exact He.
  - intros e [He _]. exact He.
Qed.

(** ** [addAll] *)

Lemma addAll_cons n rest q :
  addAll (n :: rest) q =
    match add n [] q with
    | (Normal v, q1, _) =>
        match addAll rest q1 with
        | (Normal vs, q2, _) => (Normal (v :: vs), q2, [])
        | (Throw e, q2, _) => (Throw e, q2, [])
        end
    | (Throw e, q1, _) => (Throw e, q1, [])
    end.
Proof.
  cbn [addAll]. rewrite M_bind_unfold. pose proof (add_silent n [] q) as Ha.
  destruct (add n [] q) as [[[v|e] q1] l1]; unfold log_of in Ha; simpl in Ha; subst l1;
    [|reflexivity].
  rewrite M_bind_unfold. pose proof (addAll_silent rest q1) as Hr.
  destruct (addAll rest q1) as [[[vs|e] q2] l2]; unfold log_of in Hr; simpl in Hr; subst l2;
    reflexivity.
Qed.

(** X17.  [addAll] returns one value per name when every [add] succeeds.
    When an [add] throws, [addAll] throws the same value, and the names before
    it stay added: the queue is the one the earlier [add] calls produced. *)
Theorem addAll_stops_at_the_first_error (before : list string) (q : AssetLoader) :
  (forall vs q1, addAll before q = (Normal vs, q1, []) -> length vs = length before) /\
  (forall vs q1 n rest e,
     addAll before q = (Normal vs, q1, []) ->
     completion (add n [] q1) = Throw e ->
     addAll (before ++ n :: rest) q = (Throw e, q1, [])).
Proof.
  revert q. induction before as [|m before IH]; intros q.
  - split.
    + intros vs q1 [= <- <-]. reflexivity.
    + intros vs q1 n rest e [= <- <-] He. simpl app. rewrite addAll_cons.
      destruct (add_cases q n []) as [[e' Hthrow]|(f & _ & _ & _ & Hadd)].
      * rewrite Hthrow in *. unfold completion in He. simpl in He. congruence.
      * destruct (addAs_cases q (Some f) n [])
          as [[e' Hthrow]|(f' & ro & lf & _ & _ & _ & _ & _ & Hok)].
        -- rewrite Hadd, Hthrow in *. unfold completion in He. simpl in He. congruence.
        -- rewrite Hadd, Hok in He. discriminate He.
  - split.
    + intros vs q1. rewrite addAll_cons.
      destruct (add m [] q) as [[[v|e] q'] l']; [|discriminate].
      destruct (IH q') as [IHlen _].
      destruct (addAll before q') as [[[vs'|e] q''] l''] eqn:Hb; [|discriminate].
      intros [= <- <-]. simpl. f_equal. apply (IHlen vs' q'').
      pose proof (addAll_silent before q') as Hs. rewrite Hb in Hs.
      unfold log_of in Hs. simpl in Hs. subst l''. reflexivity.
    + intros vs q1 n rest e. rewrite <- app_comm_cons, !addAll_cons.
      destruct (add m [] q) as [[[v|e0] q'] l']; [|discriminate].
      destruct (IH q') as [_ IHerr].
      destruct (addAll before q') as [[[vs'|e0] q''] l''] eqn:Hb; [|discriminate].
      intros [= <- <-] He.
      pose proof (addAll_silent before q') as Hs. rewrite Hb in Hs.
      unfold log_of in Hs. simpl in Hs. subst l''.
      rewrite (IHerr vs' q'' n rest e eq_refl He). reflexivity.
Qed.

Lemma addAll_stops_at_the_first_error_witness :
  addAll ["a.png"; "sprite"; "b.gif"] fresh
    = (Throw (NoExtension "sprite"), (run [Add "a.png" []] fresh).1, []).
Proof.
  destruct (addAll_stops_at_the_first_error ["a.png"] fresh) as [_ H].
  apply (H [Image] (run [Add "a.png" []] fresh).1 "sprite" ["b.gif"] (NoExtension "sprite"));
    reflexivity.
Defined.

(** ** The empty name *)

Lemma names_nonempty_kept q q' : fields_kept q q' -> names_nonempty q -> names_nonempty q'.
Proof.
  intros [Hlen Hk] Hq. unfold names_nonempty in *. rewrite Forall_lookup in *.
  intros r d' Hd'.
  assert (Hlt : (r < length (heap q))%nat) by (rewrite <- Hlen; eapply lookup_lt_Some; eauto).
  destruct (lookup_lt_is_Some_2 _ _ Hlt) as [d Hd].
  destruct (Hk r d Hd) as (d'' & Hd'' & Hn & _).
  assert (d'' = d') by congruence. subst d''. rewrite Hn. exact (Hq r d Hd).
Qed.

Lemma names_nonempty_addAs l n args q :
  names_nonempty q -> names_nonempty (state_of (addAs l n args q)).
Proof.
  intros Hq. destruct (addAs_cases q l n args) as [[e ->]|(f & ro & lf & _ & Hn & _ & _ & _ & ->)].
  - exact Hq.
  - unfold names_nonempty, state_of, pushed. simpl. apply Forall_app. split; [exact Hq|].
    repeat constructor. exact Hn.
Qed.

Lemma names_nonempty_exec op q : names_nonempty q -> names_nonempty (state_of (exec op q)).
Proof.
  intros Hq. destruct (keeps_assets op) eqn:Hop.
  - destruct (exec_same_assets op q Hop) as [Hk _]. exact (names_nonempty_kept _ _ Hk Hq).
  - destruct op; try discriminate; cbn [exec]; rewrite ?state_of_discard.
    + destruct (add_cases q n args) as [[e ->]|(f & _ & _ & _ & ->)]; [exact Hq|].
      apply names_nonempty_addAs. exact Hq.
    + apply names_nonempty_addAs. exact Hq.
    + destruct (indexOf (heap q) (assets q) n) as [i|] eqn:Hi.
      * destruct (indexOf_Some _ _ _ _ Hi) as (r & d & Hr & Hd & _).
        rewrite (remove_present q n i r d Hi Hr Hd). exact Hq.
      * rewrite remove_absent by assumption. exact Hq.
    + rewrite removeAll_closed. exact Hq.
Qed.

(** X18.  On every queue reached from the constructor no descriptor has the
    empty name: [getDescriptor], [getStatus] and [get] return [null] for it,
    and [remove] of it does nothing. *)
Theorem empty_name_is_never_present (common : gmap string Loader) (q : AssetLoader) :
  reachable (initialize common) q ->
  getDescriptor q "" = None /\ getStatus q "" = JSNull /\ get_ q "" = JSNull /\
  remove "" q = (Normal JSNull, q, []).
Proof.
  intros Hq.
  assert (Hn : names_nonempty q).
  { induction Hq as [|q op _ IH]; [constructor|]. apply names_nonempty_exec. exact IH. }
  assert (Hg : getDescriptor q "" = None).
  { destruct (getDescriptor q "") as [r|] eqn:Hg; [|reflexivity]. exfalso.
    apply getDescriptor_Some in Hg as [_ Hname]. unfold name_at in Hname.
    destruct (heap q !! r) as [d|] eqn:Hd; [|discriminate]. simpl in Hname.
    unfold names_nonempty in Hn. rewrite Forall_lookup in Hn.
    apply (Hn r d Hd). congruence. }
  split; [exact Hg|]. unfold getStatus, get_. rewrite Hg.
  split; [reflexivity|]. split; [reflexivity|].
  apply remove_absent. apply getDescriptor_None. exact Hg.
Qed.

Lemma empty_name_is_never_present_witness :
  getStatus two_images_first_started "" = JSNull.
Proof.
  destruct (empty_name_is_never_present ∅ two_images_first_started) as (_ & H & _).
  - apply (run_reachable fresh [Add "a.png" []; Add "b.gif" []; Update] fresh).
    apply reachable_init.
  - exact H.
Defined.

(** ** The two image loaders *)

(** X19.  Whatever happens to the image, the [load] function of either image
    loader calls no callback before it returns.  With the bundled loader every
    handler calls its one callback, which is the success callback, so a
    present asset ends up loaded and no error event is dispatched, also after
    [onerror] or [onabort].  With the loader of the demos the asset is loaded
    exactly after [onload], and exactly one error event is dispatched after
    [onerror] and after [onabort]. *)
Theorem image_loaders_report (q : AssetLoader) (n : string) (i : nat) (ev : ImageEvent) :
  indexOf (heap q) (assets q) n = Some i ->
  let cb := Bind n true in
  let cbFail := Bind n false in
  let bundled := ImageLoader_handler cb ev in
  let demo := DemoImageLoader_handler cb cbFail ev in
  ImageLoader_load cb cbFail = [] /\ DemoImageLoader_load cb cbFail = [] /\
  isLoaded (state_of (invoke bundled.1 bundled.2 q)) n = true /\
  List.filter is_loadError (log_of (invoke bundled.1 bundled.2 q)) = [] /\
  isLoaded (state_of (invoke demo.1 demo.2 q)) n
    = match ev with onload => true | _ => false end /\
  List.filter is_loadError (log_of (invoke demo.1 demo.2 q))
    = match ev with
      | onload => []
      | _ => [loadError n (total q - (remaining q - 1)) (total q)]
      end.
Proof.
  intros Hi. cbv zeta. destruct (indexOf_Some _ _ _ _ Hi) as (r & d & Hr & Hd & _).
  split; [reflexivity|]. split; [reflexivity|].
  assert (Hl : forall b args,
            isLoaded (state_of (invoke (Bind n b) args q)) n = b).
  { intros b args. unfold isLoaded. rewrite invoke_eq. simpl.
    rewrite (getStatus_completed q n (JSBool b) i Hi). destruct b; reflexivity. }
  assert (He : forall b args,
            List.filter is_loadError (log_of (invoke (Bind n b) args q))
              = if b then [] else [loadError n (total q - (remaining q - 1)) (total q)]).
  { intros b args. rewrite invoke_eq. simpl.
    rewrite (__loadCallback_present q n (JSBool b) i r d Hi Hr Hd).
    unfold log_of, completed_log, total, remaining. simpl.
    destruct b; simpl; destruct (__loadCount q - 1 =? 0); reflexivity. }
  destruct ev; simpl; rewrite ?Hl, ?He; repeat split; reflexivity.
Qed.

Lemma image_loaders_report_witness :
  isLoaded (state_of (invoke (ImageLoader_handler (Bind "a.png" true) onerror).1
                        (ImageLoader_handler (Bind "a.png" true) onerror).2
                        two_images_first_started)) "a.png" = true.
Proof.
  destruct (image_loaders_report two_images_first_started "a.png" 0%nat onerror)
    as (_ & _ & H & _); [reflexivity | exact H].
Defined.
